(** * boarding_pass: the face server of [server.js]

  A shallow embedding of the three parts of [server.js] that carry logic:
  the face rectangle normalizer inside [POST /detectFaces] (lines 27-46),
  the upload relay [POST /uploadPdfDirect] (lines 60-109) and the three
  download endpoints (lines 111-160).

  JavaScript values are an inductive type, exceptions are an explicit
  [result], the bucket of the storage SDK is a finite map from object names
  to bytes.  Coordinates are integers: the detection provider delivers
  vertices with 32-bit integer coordinates, on which [Math.min], [Math.max]
  and the subtraction of doubles are exact. *)

From Stdlib Require Import ZArith Lia Ascii List Sorted Permutation.
From stdpp Require Import base list strings gmap sorting.

Open Scope Z_scope.

(** ** JavaScript values and exceptions *)

Module JS.

(** What a handler can throw and its [catch] can see. *)
Inductive exn : Type :=
| TypeError   (* reading a property of undefined or null, calling a non-function *)
| SdkError.   (* a rejected promise of the storage client *)

Inductive result (A : Type) : Type :=
| Ok (a : A)
| Throw (e : exn).
Arguments Ok {A} a.
Arguments Throw {A} e.

#[export] Instance result_ret : MRet result := fun A a => Ok a.
#[export] Instance result_bind : MBind result := fun A B f m =>
  match m with
  | Ok a => f a
  | Throw e => Throw e
  end.

(** Values as they come out of [JSON.parse] or of the provider's client:
    an object is the list of its own properties, strings are sequences of
    8-bit code units. *)
#[warnings="-register-all"]
Inductive value : Type :=
| VUndefined
| VNull
| VBool (b : bool)
| VNumber (n : Z)
| VString (s : string)
| VObject (props : list (string * value))
| VArray (elems : list value).

Fixpoint own_prop (props : list (string * value)) (k : string) : value :=
  match props with
  | [] => VUndefined
  | (k', v) :: rest => if String.eqb k' k then v else own_prop rest k
  end.

(** [v.k].  The names the server reads ([boundingPoly], [vertices], [x],
    [y], [pdfBase64], [objectName]) are not built-in properties of
    primitives or arrays, so reading them there gives [undefined]. *)
Definition Get (v : value) (k : string) : result value :=
  match v with
  | VUndefined | VNull => Throw TypeError
  | VObject props => Ok (own_prop props k)
  | VBool _ | VNumber _ | VString _ | VArray _ => Ok VUndefined
  end.

(** [v?.k] *)
Definition OptGet (v : value) (k : string) : result value :=
  match v with
  | VUndefined | VNull => Ok VUndefined
  | _ => Get v k
  end.

(** [ToBoolean], as used by [!], [||] and [filter(Boolean)]. *)
Definition truthy (v : value) : bool :=
  match v with
  | VUndefined | VNull => false
  | VBool b => b
  | VNumber n => negb (n =? 0)
  | VString s => negb (String.eqb s "")
  | VObject _ | VArray _ => true
  end.

(** [a || b] *)
Definition or_else (a b : value) : value := if truthy a then a else b.

(** [Math.min(x0, ...rest)] and [Math.max(x0, ...rest)] on at least one
    argument. *)
Definition Math_min (x0 : Z) (rest : list Z) : Z := fold_left Z.min rest x0.
Definition Math_max (x0 : Z) (rest : list Z) : Z := fold_left Z.max rest x0.

(** [Array.prototype.map] with a callback that may throw: the first
    exception aborts the loop. *)
Fixpoint Array_map {A B : Type} (f : A → result B) (l : list A)
  : result (list B) :=
  match l with
  | [] => Ok []
  | a :: l' => b ← f a; bs ← Array_map f l'; Ok (b :: bs)
  end.

(** [Array.prototype.forEach] used as a loop over an accumulator. *)
Fixpoint Array_forEach {A S : Type} (f : S → A → result S) (s : S)
  (l : list A) : result S :=
  match l with
  | [] => Ok s
  | a :: l' => s' ← f s a; Array_forEach f s' l'
  end.

(** [filter(Boolean)] on an array of objects and [null]s: an object is
    truthy, [null] is not. *)
Fixpoint filter_Boolean {A : Type} (l : list (option A)) : list A :=
  match l with
  | [] => []
  | Some a :: l' => a :: filter_Boolean l'
  | None :: l' => filter_Boolean l'
  end.

(** [Array.prototype.sort(comparefn)].  ECMAScript fixes the result for a
    consistent comparator: the sorted permutation that keeps elements
    comparing equal in their original order.  The model inserts each
    element in front of the sorted rest and moves it right only past
    elements that must precede it ([comparefn(a, b) > 0]). *)
Section Sort.
Context {A : Type} (comparefn : A → A → Z).

Fixpoint sort_insert (a : A) (l : list A) : list A :=
  match l with
  | [] => [a]
  | b :: l' =>
      if 0 <? comparefn a b then b :: sort_insert a l' else a :: b :: l'
  end.

Definition Array_sort (l : list A) : list A := foldr sort_insert [] l.

(** The classic in-place insertion sort of an engine, read functionally:
    the elements are taken left to right and each is placed in the sorted
    prefix behind everything that does not have to follow it. *)
Fixpoint place (a : A) (prefix : list A) : list A :=
  match prefix with
  | [] => [a]
  | b :: rest =>
      if comparefn a b <? 0 then a :: b :: rest else b :: place a rest
  end.

Definition insertion_sort (l : list A) : list A :=
  fold_left (λ prefix a, place a prefix) l [].
End Sort.

End JS.
Import JS.

(** ** The face rectangle normalizer ([server.js], lines 27-46) *)

Record Rect : Type := mkRect { x : Z; y : Z; w : Z; h : Z }.

Module Normalizer.

(** [face.boundingPoly?.vertices || []] *)
Definition verts_of (face : value) : result value :=
  poly ← Get face "boundingPoly";
  vs ← OptGet poly "vertices";
  Ok (or_else vs (VArray [])).

(** The body of the [forEach] callback: push [v.x] and [v.y] when
    [typeof] says number. *)
Definition push_vertex (acc : list Z * list Z) (v : value)
  : result (list Z * list Z) :=
  vx ← Get v "x";
  vy ← Get v "y";
  let xs := match vx with VNumber n => acc.1 ++ [n] | _ => acc.1 end in
  let ys := match vy with VNumber n => acc.2 ++ [n] | _ => acc.2 end in
  Ok (xs, ys).

(** [verts.forEach(...)]: only an array has the method. *)
Definition collect (verts : value) : result (list Z * list Z) :=
  match verts with
  | VArray vs => Array_forEach push_vertex ([], []) vs
  | _ => Throw TypeError
  end.

(** The [map] callback: one annotation to a rectangle or [null]. *)
Definition face_rect (face : value) : result (option Rect) :=
  verts ← verts_of face;
  coords ← collect verts;
  match coords with
  | (x0 :: xs, y0 :: ys) =>
      let minX := Math_min x0 xs in
      let maxX := Math_max x0 xs in
      let minY := Math_min y0 ys in
      let maxY := Math_max y0 ys in
      Ok (Some (mkRect minX minY (maxX - minX) (maxY - minY)))
  | _ => Ok None   (* if (!xs.length || !ys.length) return null *)
  end.

(** [(a, b) => a.x - b.x] *)
Definition by_x (a b : Rect) : Z := x a - x b.

(** [annotations.map(...).filter(Boolean).sort(...)], for an engine whose
    sort is [sort]. *)
Definition faces_with (sort : (Rect → Rect → Z) → list Rect → list Rect)
  (annotations : list value) : result (list Rect) :=
  mapped ← Array_map face_rect annotations;
  Ok (sort by_x (filter_Boolean mapped)).

Definition faces : list value → result (list Rect) :=
  faces_with (@Array_sort Rect).

End Normalizer.
Import Normalizer.

(** ** The storage relay ([server.js], lines 60-160) *)

Module Storage.

Definition bytes : Type := list Byte.byte.

(** The bucket [xcape-menu-bucket]: object name to content. *)
Abbreviation bucket := (gmap string bytes).

Definition MENU_OBJECT : string := "menu_current.pdf".
Definition BOARDPASS_OBJECT : string := "boardpass_current.pdf".
Definition LEGACY_BOARDING_OBJECT : string := "boarding_current.pdf".

(** [new Set([...])]: distinct names in insertion order, which is the order
    [Array.from] lists them in. *)
Definition ALLOWED_OBJECTS : list string :=
  [MENU_OBJECT; BOARDPASS_OBJECT; LEGACY_BOARDING_OBJECT].

Definition Set_has (s : list string) (k : string) : bool :=
  existsb (String.eqb k) s.

(** White space and line terminators of ECMAScript among 8-bit code units:
    tab, line feed, vertical tab, form feed, carriage return, space and
    no-break space. *)
Definition is_white_space (c : ascii) : bool :=
  match N_of_ascii c with
  | 9 | 10 | 11 | 12 | 13 | 32 | 160 => true
  | _ => false
  end%N.

Fixpoint trimStart (s : string) : string :=
  match s with
  | EmptyString => EmptyString
  | String c s' => if is_white_space c then trimStart s' else s
  end.

Fixpoint trimEnd (s : string) : string :=
  match s with
  | EmptyString => EmptyString
  | String c s' =>
      match trimEnd s' with
      | EmptyString => if is_white_space c then EmptyString else String c EmptyString
      | t => String c t
      end
  end.

(** [String.prototype.trim] *)
Definition trim (s : string) : string := trimEnd (trimStart s).

(** [v.trim()]: only a string has the method. *)
Definition call_trim (v : value) : result string :=
  match v with
  | VString s => Ok (trim s)
  | _ => Throw TypeError
  end.

(** What the handlers call and do not define: [Buffer.from(_, "base64")] of
    Node and the two calls of the storage client.  Decoding a string never
    throws; what [Buffer.from] does with another value, and which calls the
    storage service rejects, is left open. *)
Inductive sdk_call : Type :=
| Save (name : string) (data : bytes)
| Download (name : string).

Class Runtime : Type := {
  base64 : string → bytes;
  Buffer_from_other : value → result bytes;
  sdk_rejects : sdk_call → bool
}.

Inductive body : Type :=
| Json (v : value)        (* res.json(v) *)
| Text (s : string)       (* res.send(s) *)
| Pdf (content : bytes).  (* res.send(bytes) *)

Record response : Type := mkResponse {
  status : Z;
  headers : list (string * string);   (* the res.setHeader calls, in order *)
  payload : body
}.

Section Handlers.
Context `{Runtime}.

(** [Buffer.from(v, "base64")] *)
Definition Buffer_from (v : value) : result bytes :=
  match v with
  | VString s => Ok (base64 s)
  | _ => Buffer_from_other v
  end.

(** [await file.save(data, ...)] on [bucket.file(name)] *)
Definition file_save (b : bucket) (name : string) (data : bytes)
  : result bucket :=
  if sdk_rejects (Save name data) then Throw SdkError
  else Ok (<[name := data]> b).

(** [await file.download()] on [bucket.file(name)]: an object that does not
    exist rejects. *)
Definition file_download (b : bucket) (name : string) : result bytes :=
  if sdk_rejects (Download name) then Throw SdkError
  else match b !! name with
       | Some data => Ok data
       | None => Throw SdkError
       end.

(** [(req.body?.objectName || MENU_OBJECT).trim()] *)
Definition objectName_of (req_body : value) : result string :=
  name ← OptGet req_body "objectName";
  call_trim (or_else name (VString MENU_OBJECT)).

(** The [try] block of [POST /uploadPdfDirect]. *)
Definition uploadPdfDirect_try (req_body : value) (b : bucket)
  : result (response * bucket) :=
  pdfBase64 ← OptGet req_body "pdfBase64";
  if negb (truthy pdfBase64) then
    Ok (mkResponse 400 []
          (Json (VObject [("error", VString "No pdfBase64 provided")])), b)
  else
    objectName ← objectName_of req_body;
    if negb (Set_has ALLOWED_OBJECTS objectName) then
      Ok (mkResponse 400 []
            (Json (VObject [("error", VString "Invalid objectName");
                            ("allowed", VArray (map VString ALLOWED_OBJECTS))])),
          b)
    else
      pdfBuffer ← Buffer_from pdfBase64;
      b' ← file_save b objectName pdfBuffer;
      Ok (mkResponse 200 []
            (Json (VObject [("ok", VBool true);
                            ("objectName", VString objectName)])), b').

(** [POST /uploadPdfDirect]: the response and the bucket afterwards. *)
Definition uploadPdfDirect (req_body : value) (b : bucket)
  : response * bucket :=
  match uploadPdfDirect_try req_body b with
  | Ok r => r
  | Throw _ =>
      (mkResponse 500 [] (Json (VObject [("error", VString "upload failed")])),
       b)
  end.

(** The body shared by the three download handlers, which differ in the
    object they read and in the text of the failure. *)
Definition serve (object : string) (unavailable : string) (b : bucket)
  : response :=
  match file_download b object with
  | Ok content =>
      mkResponse 200
        [("Content-Type", "application/pdf"); ("Cache-Control", "no-store")]
        (Pdf content)
  | Throw _ => mkResponse 500 [] (Text unavailable)
  end.

(** [GET /menu_current] *)
Definition menu_current : bucket → response :=
  serve MENU_OBJECT "menu not available".

(** [GET /boardpass_current] *)
Definition boardpass_current : bucket → response :=
  serve BOARDPASS_OBJECT "boardpass not available".

(** [GET /boarding_current]: [bucket.file(BOARDPASS_OBJECT)] *)
Definition boarding_current : bucket → response :=
  serve BOARDPASS_OBJECT "boarding pass not available".

(** The routes that send a stored object. *)
Inductive download_endpoint : Type :=
| GET_menu_current
| GET_boardpass_current
| GET_boarding_current.

Definition download (e : download_endpoint) : bucket → response :=
  match e with
  | GET_menu_current => menu_current
  | GET_boardpass_current => boardpass_current
  | GET_boarding_current => boarding_current
  end.

End Handlers.

End Storage.
Import Storage.

(** ** The vocabulary of the specification *)

Module Spec.

(** The agreed shape of a [RawAnnotation]: an object whose [boundingPoly],
    when there is one, is an object whose [vertices], when there are some,
    is an array of objects.  Nothing is asked of the [x] and [y] of a vertex:
    each may be missing or hold any value. *)
Definition is_vertex (v : value) : bool :=
  match v with VObject _ => true | _ => false end.

Definition is_polygon (poly : value) : bool :=
  match poly with
  | VObject props =>
      match own_prop props "vertices" with
      | VUndefined | VNull => true
      | VArray vs => forallb is_vertex vs
      | _ => false
      end
  | _ => false
  end.

Definition RawAnnotation (face : value) : bool :=
  match face with
  | VObject props =>
      match own_prop props "boundingPoly" with
      | VUndefined | VNull => true
      | poly => is_polygon poly
      end
  | _ => false
  end.

(** The vertex list of an annotation, empty when it has none. *)
Definition vertices (face : value) : list value :=
  match face with
  | VObject props =>
      match own_prop props "boundingPoly" with
      | VObject poly =>
          match own_prop poly "vertices" with
          | VArray vs => vs
          | _ => []
          end
      | _ => []
      end
  | _ => []
  end.

(** [n] is in the numeric [k]-set of the vertex list: some vertex has a
    coordinate [k] that is present and a number, namely [n]. *)
Definition coordinate (k : string) (vs : list value) (n : Z) : Prop :=
  ∃ v, v ∈ vs ∧ Get v k = Ok (VNumber n).

Definition least (S : Z → Prop) (m : Z) : Prop := S m ∧ ∀ n, S n → m ≤ n.
Definition greatest (S : Z → Prop) (m : Z) : Prop := S m ∧ ∀ n, S n → n ≤ m.

(** An annotation is degenerate when one of its two numeric sets is empty. *)
Definition degenerate (face : value) : Prop :=
  (¬ ∃ n, coordinate "x" (vertices face) n) ∨
  (¬ ∃ n, coordinate "y" (vertices face) n).

(** What ECMAScript asks of [Array.prototype.sort] when the comparator
    orders by a key: the result is a permutation of the input, in
    non-decreasing key order, and the elements of one key are in their
    original order. *)
Definition sorts_by {A : Type} (key : A → Z) (l l' : list A) : Prop :=
  l' ≡ₚ l ∧
  StronglySorted (λ a b, key a ≤ key b) l' ∧
  ∀ k, filter (λ a, key a = k) l' = filter (λ a, key a = k) l.

(** Provenance: the surviving entries of the mapped array, each with its
    position in the input, counted from [n]. *)
Fixpoint tag_from (n : nat) (mapped : list (option Rect))
  : list (nat * Rect) :=
  match mapped with
  | [] => []
  | Some r :: rest => (n, r) :: tag_from (S n) rest
  | None :: rest => tag_from (S n) rest
  end.

(** [req.body?.k] as a value: optional chaining never throws. *)
Definition field (req_body : value) (k : string) : value :=
  match req_body with
  | VObject props => own_prop props k
  | _ => VUndefined
  end.

End Spec.
Import Spec.

(** ** The detection endpoint ([server.js], lines 15-53) *)

Module Detect.

(** The detection provider.  [faceDetection request] is what
    [const [result] = await visionClient.faceDetection(request)] binds
    [result] to, or the rejection of the promise. *)
Class Vision : Type := {
  faceDetection : value → result value
}.

(** The object literal [{ x: ..., y: ..., w: ..., h: ... }] as [res.json]
    sends it. *)
Definition rect_json (r : Rect) : value :=
  VObject [("x", VNumber (x r)); ("y", VNumber (y r));
           ("w", VNumber (w r)); ("h", VNumber (h r))].

Definition no_image : response :=
  mkResponse 400 [] (Json (VObject [("error", VString "No imageBase64 provided")])).

Definition vision_failed : response :=
  mkResponse 500 [] (Json (VObject [("error", VString "Vision call failed")])).

Section Handler.
Context `{Vision}.

(** The [try] block of [POST /detectFaces]. *)
Definition detectFaces_try (req_body : value) : result response :=
  if negb (truthy req_body) then Ok no_image
  else
    imageBase64 ← Get req_body "imageBase64";
    if negb (truthy imageBase64) then Ok no_image
    else
      res ← faceDetection
               (VObject [("image", VObject [("content", imageBase64)])]);
      found ← Get res "faceAnnotations";
      match or_else found (VArray []) with
      | VArray annotations =>
          out ← faces annotations;
          Ok (mkResponse 200 []
                (Json (VObject [("faces", VArray (map rect_json out))])))
      | _ => Throw TypeError   (* annotations.map is not a function *)
      end.

(** [POST /detectFaces] *)
Definition detectFaces (req_body : value) : response :=
  match detectFaces_try req_body with
  | Ok r => r
  | Throw _ => vision_failed
  end.

End Handler.

End Detect.
Import Detect.

(** ** Vocabulary for the edge cases *)

Module Edge.

Definition nullish (v : value) : bool :=
  match v with
  | VUndefined | VNull => true
  | _ => false
  end.

(** The annotations the callback cannot process: [null] and [undefined],
    those whose [boundingPoly.vertices] is a truthy value other than an
    array, and those with a [null] or [undefined] vertex. *)
Definition breaks (face : value) : bool :=
  nullish face ||
  match or_else (field (field face "boundingPoly") "vertices") (VArray []) with
  | VArray vs => existsb nullish vs
  | _ => true
  end.

(** The object a download endpoint reads. *)
Definition object_of (e : download_endpoint) : string :=
  match e with
  | GET_menu_current => MENU_OBJECT
  | GET_boardpass_current | GET_boarding_current => BOARDPASS_OBJECT
  end.

(** The text a download endpoint sends when the read fails. *)
Definition unavailable_of (e : download_endpoint) : string :=
  match e with
  | GET_menu_current => "menu not available"
  | GET_boardpass_current => "boardpass not available"
  | GET_boarding_current => "boarding pass not available"
  end.

Fixpoint all_white_space (s : string) : bool :=
  match s with
  | EmptyString => true
  | String c s' => is_white_space c && all_white_space s'
  end.

(** The four answers of [POST /uploadPdfDirect]. *)
Definition upload_ok (name : string) : response :=
  mkResponse 200 []
    (Json (VObject [("ok", VBool true); ("objectName", VString name)])).

Definition upload_no_payload : response :=
  mkResponse 400 [] (Json (VObject [("error", VString "No pdfBase64 provided")])).

Definition upload_invalid_name : response :=
  mkResponse 400 []
    (Json (VObject [("error", VString "Invalid objectName");
                    ("allowed", VArray [VString "menu_current.pdf";
                                        VString "boardpass_current.pdf";
                                        VString "boarding_current.pdf"])])).

Definition upload_failed : response :=
  mkResponse 500 [] (Json (VObject [("error", VString "upload failed")])).

(** The answer of a download endpoint that found its object. *)
Definition served (content : bytes) : response :=
  mkResponse 200
    [("Content-Type", "application/pdf"); ("Cache-Control", "no-store")]
    (Pdf content).

(** The request [POST /detectFaces] sends to the provider and its answer
    when the provider and the normalizer both return. *)
Definition vision_request (imageBase64 : value) : value :=
  VObject [("image", VObject [("content", imageBase64)])].

Definition faces_found (out : list Rect) : response :=
  mkResponse 200 [] (Json (VObject [("faces", VArray (map rect_json out))])).

(** A request carries an image when the body is truthy and so is its
    [imageBase64]. *)
Definition has_image (req_body : value) : bool :=
  truthy req_body && truthy (field req_body "imageBase64").

End Edge.
Import Edge.

(** ** The normalizer with its arrays in a store

    Lines 29-46 once more, now with what JavaScript does to memory: the
    arrays are cells of a store, [[]] and the results of [map] and [filter]
    are new cells, [push] and [sort] change a cell in place.  The array of
    annotations the provider delivered is a cell too. *)

Module Stateful.

Inductive array : Type :=
| Values (vs : list value)             (* the annotations *)
| Numbers (ns : list Z)                (* xs and ys *)
| Nullable (os : list (option Rect))   (* what map returns *)
| Rects (rs : list Rect).              (* what filter returns, sorted in place *)

Abbreviation store := (gmap nat array).

(** A computation that reads and writes the store and may throw. *)
Definition M (A : Type) : Type := store → result A * store.

#[export] Instance M_ret : MRet M := λ A a h, (Ok a, h).
#[export] Instance M_bind : MBind M := λ A B f m h,
  match m h with
  | (Ok a, h') => f a h'
  | (Throw e, h') => (Throw e, h')
  end.

(** A step that does not touch the store. *)
Definition pure {A : Type} (r : result A) : M A := λ h, (r, h).

(** An array literal, or the array a library call returns: a cell that was
    not there before. *)
Definition new_array (a : array) : M nat := λ h,
  let l := fresh (dom h) in (Ok l, <[l := a]> h).

(** [annotations] read by [map] *)
Definition values_at (l : nat) : M (list value) := λ h,
  match h !! l with
  | Some (Values vs) => (Ok vs, h)
  | _ => (Throw TypeError, h)
  end.

(** [xs.length] and [...xs] *)
Definition numbers_at (l : nat) : M (list Z) := λ h,
  match h !! l with
  | Some (Numbers ns) => (Ok ns, h)
  | _ => (Throw TypeError, h)
  end.

(** [xs.push(n)] *)
Definition push (l : nat) (n : Z) : M unit := λ h,
  match h !! l with
  | Some (Numbers ns) => (Ok (), <[l := Numbers (ns ++ [n])]> h)
  | _ => (Throw TypeError, h)
  end.

(** [a.sort(comparefn)]: sorts the cell in place and returns the same
    array. *)
Definition sort_at (sort : (Rect → Rect → Z) → list Rect → list Rect)
  (comparefn : Rect → Rect → Z) (l : nat) : M nat := λ h,
  match h !! l with
  | Some (Rects rs) => (Ok l, <[l := Rects (sort comparefn rs)]> h)
  | _ => (Throw TypeError, h)
  end.

Fixpoint forEach_M {A : Type} (f : A → M unit) (l : list A) : M unit :=
  match l with
  | [] => mret ()
  | a :: l' => _ ← f a; forEach_M f l'
  end.

Fixpoint map_M {A B : Type} (f : A → M B) (l : list A) : M (list B) :=
  match l with
  | [] => mret []
  | a :: l' => b ← f a; bs ← map_M f l'; mret (b :: bs)
  end.

(** The [forEach] callback, with [xs] and [ys] the cells of lines 32-33. *)
Definition push_vertex_at (xs ys : nat) (v : value) : M unit :=
  vx ← pure (Get v "x");
  _ ← match vx with VNumber n => push xs n | _ => mret () end;
  vy ← pure (Get v "y");
  match vy with VNumber n => push ys n | _ => mret () end.

(** The [map] callback, lines 30-44. *)
Definition face_rect_at (face : value) : M (option Rect) :=
  verts ← pure (verts_of face);
  xs ← new_array (Numbers []);
  ys ← new_array (Numbers []);
  _ ← match verts with
      | VArray vs => forEach_M (push_vertex_at xs ys) vs
      | _ => pure (Throw TypeError)
      end;
  xs_now ← numbers_at xs;
  ys_now ← numbers_at ys;
  match xs_now, ys_now with
  | x0 :: xr, y0 :: yr =>
      let minX := Math_min x0 xr in
      let maxX := Math_max x0 xr in
      let minY := Math_min y0 yr in
      let maxY := Math_max y0 yr in
      mret (Some (mkRect minX minY (maxX - minX) (maxY - minY)))
  | _, _ => mret None   (* if (!xs.length || !ys.length) return null *)
  end.

(** [annotations.map(...).filter(Boolean).sort(...)] on the array in cell
    [annotations]; the value is the cell of the array it returns.  The
    array of [map] gets its cell when the loop is done; which cell an array
    is in is not observable. *)
Definition faces_at (sort : (Rect → Rect → Z) → list Rect → list Rect)
  (annotations : nat) : M nat :=
  faces_in ← values_at annotations;
  mapped ← map_M face_rect_at faces_in;
  _ ← new_array (Nullable mapped);
  filtered ← new_array (Rects (filter_Boolean mapped));
  sort_at sort by_x filtered.

(** What a run of [faces_at] hands to [res.json]: the rectangles in the
    returned array, or the exception. *)
Definition returned (run : result nat * store) : result (list Rect) :=
  match run with
  | (Ok l, h) =>
      match h !! l with
      | Some (Rects rs) => Ok rs
      | _ => Throw TypeError
      end
  | (Throw e, _) => Throw e
  end.

(** Every cell of [h] is in [h'] with the same content. *)
Definition untouched (h h' : store) : Prop :=
  ∀ l a, h !! l = Some a → h' !! l = Some a.

End Stateful.
Import Stateful.

(** A runtime for the examples: the store accepts every call, no value
    but a string makes a buffer, and the decoder is a stand-in that takes
    the code units of the text as the bytes. *)
Definition example_runtime : Runtime := {|
  base64 := λ s, map byte_of_ascii (String.list_ascii_of_string s);
  Buffer_from_other := λ _, Throw TypeError;
  sdk_rejects := λ _, false
|}.

Definition upload_request (pdfBase64 : string) (objectName : option string)
  : value :=
  VObject (("pdfBase64", VString pdfBase64) ::
           match objectName with
           | Some name => [("objectName", VString name)]
           | None => []
           end).

(** Builders for the examples. *)
Definition vertex (vx vy : option Z) : value :=
  VObject ((match vx with Some n => [("x", VNumber n)] | None => [] end) ++
           (match vy with Some n => [("y", VNumber n)] | None => [] end)).
Definition annotation (vs : list value) : value :=
  VObject [("boundingPoly", VObject [("vertices", VArray vs)])].

(** Inputs of the scenarios. *)
Definition face_A : value :=
  annotation [vertex (Some 10) (Some 5); vertex (Some 50) (Some 40)].
Definition face_B : value := annotation [vertex (Some 5) None].
Definition face_point : value := annotation [vertex (Some (-7)) (Some 3)].
Definition faces_ties : list value :=
  [annotation [vertex (Some 30) (Some 0); vertex (Some 60) (Some 10)];
   annotation [vertex (Some 10) (Some 0); vertex (Some 20) (Some 1)];
   annotation [vertex (Some 10) (Some 0); vertex (Some 20) (Some 2)]].
Definition example_bucket : bucket :=
  {[ BOARDPASS_OBJECT := [Byte.x01]; LEGACY_BOARDING_OBJECT := [Byte.x02] ]}.

(** A provider for the examples: it finds the three faces of [faces_ties]
    in every image. *)
Definition example_vision : Vision := {|
  faceDetection := λ _, Ok (VObject [("faceAnnotations", VArray faces_ties)])
|}.

(** A provider that is down. *)
Definition failing_vision : Vision := {|
  faceDetection := λ _, Throw SdkError
|}.

Definition detect_request (imageBase64 : string) : value :=
  VObject [("imageBase64", VString imageBase64)].

(** Two stores that hold the annotations of [faces_ties], in different
    cells and among different other arrays. *)
Definition example_store : store :=
  {[ 1%nat := Values faces_ties; 2%nat := Numbers [7] ]}.
Definition other_store : store :=
  {[ 0%nat := Rects [mkRect 1 1 1 1]; 5%nat := Values faces_ties ]}.

(** Scenarios A to D of the specification. *)
Example scenario_A :
  faces [annotation [vertex (Some 10) (Some 5); vertex (Some 50) (Some 40)]]
  = Ok [mkRect 10 5 40 35].
Proof. reflexivity. Qed.

Example scenario_B : faces [annotation [vertex (Some 5) None]] = Ok [].
Proof. reflexivity. Qed.

Example scenario_C :
  faces [annotation [vertex (Some 30) (Some 0); vertex (Some 60) (Some 10)];
         annotation [vertex (Some 0) (Some 0); vertex (Some 10) (Some 10)]]
  = Ok [mkRect 0 0 10 10; mkRect 30 0 30 10].
Proof. reflexivity. Qed.

Example scenario_D : faces [] = Ok [].
Proof. reflexivity. Qed.

(** Two faces with one left edge keep their order. *)
Example scenario_ties :
  faces [annotation [vertex (Some 30) (Some 0); vertex (Some 60) (Some 10)];
         annotation [vertex (Some 10) (Some 0); vertex (Some 20) (Some 1)];
         annotation [vertex (Some 10) (Some 0); vertex (Some 20) (Some 2)]]
  = Ok [mkRect 10 0 10 1; mkRect 10 0 10 2; mkRect 30 0 30 10].
Proof. reflexivity. Qed.

(** A vertex that is [null] makes the callback throw. *)
Example null_vertex_throws :
  faces [annotation [VNull]] = Throw TypeError.
Proof. reflexivity. Qed.

(** ** The sort of the engine *)

Section SortFacts.
Context {A : Type} (key : A → Z).

Let cmp (a b : A) : Z := key a - key b.
Let le (a b : A) : Prop := key a ≤ key b.

Lemma sort_insert_perm a l : sort_insert cmp a l ≡ₚ a :: l.
Proof.
  induction l as [|b l IH]; simpl; [done|].
  destruct (0 <? cmp a b); [|done].
  rewrite IH. apply Permutation_swap.
Qed.

Lemma Array_sort_perm l : Array_sort cmp l ≡ₚ l.
Proof.
  induction l as [|a l IH]; simpl; [done|].
  by rewrite sort_insert_perm, IH.
Qed.

Lemma sort_insert_sorted a l :
  StronglySorted le l → StronglySorted le (sort_insert cmp a l).
Proof.
  induction 1 as [|b l Hl IH Hb]; simpl.
  - repeat constructor.
  - destruct (0 <? cmp a b) eqn:E.
    + apply Z.ltb_lt in E. constructor; [done|].
      rewrite sort_insert_perm. constructor; [|done].
      subst cmp le. simpl in *. lia.
    + apply Z.ltb_ge in E.
      assert (le a b) by (subst cmp le; simpl in *; lia).
      constructor; [by constructor|].
      constructor; [done|].
      eapply Forall_impl; [exact Hb|].
      subst le. simpl in *. intros; lia.
Qed.

Lemma Array_sort_sorted l : StronglySorted le (Array_sort cmp l).
Proof.
  induction l as [|a l IH]; simpl; [constructor|].
  by apply sort_insert_sorted.
Qed.

Lemma sort_insert_filter k a l :
  filter (λ b, key b = k) (sort_insert cmp a l)
  = filter (λ b, key b = k) (a :: l).
Proof.
  induction l as [|b l IH]; simpl; [done|].
  destruct (0 <? cmp a b) eqn:E; [|done].
  apply Z.ltb_lt in E. subst cmp. simpl in E.
  rewrite filter_cons, IH, !filter_cons.
  repeat case_decide; (done || lia).
Qed.

Lemma Array_sort_filter k l :
  filter (λ b, key b = k) (Array_sort cmp l) = filter (λ b, key b = k) l.
Proof.
  induction l as [|a l IH]; simpl; [done|].
  by rewrite sort_insert_filter, !filter_cons, IH.
Qed.

(** The model of the sort meets the contract. *)
Lemma Array_sort_sorts_by l : sorts_by key l (Array_sort cmp l).
Proof.
  split; [apply Array_sort_perm|].
  split; [apply Array_sort_sorted|].
  intros k. apply Array_sort_filter.
Qed.

Lemma place_perm a l : place cmp a l ≡ₚ a :: l.
Proof.
  induction l as [|b l IH]; simpl; [done|].
  destruct (cmp a b <? 0); [done|].
  rewrite IH. apply Permutation_swap.
Qed.

Lemma place_sorted a l :
  StronglySorted le l → StronglySorted le (place cmp a l).
Proof.
  induction 1 as [|b l Hl IH Hb]; simpl.
  - repeat constructor.
  - destruct (cmp a b <? 0) eqn:E.
    + apply Z.ltb_lt in E.
      assert (le a b) by (subst cmp le; simpl in *; lia).
      constructor; [by constructor|].
      constructor; [done|].
      eapply Forall_impl; [exact Hb|].
      subst le. simpl in *. intros; lia.
    + apply Z.ltb_ge in E. constructor; [done|].
      rewrite place_perm. constructor; [|done].
      subst cmp le. simpl in *. lia.
Qed.

Lemma place_filter k a l :
  StronglySorted le l →
  filter (λ b, key b = k) (place cmp a l)
  = filter (λ b, key b = k) (l ++ [a]).
Proof.
  induction 1 as [|b l Hl IH Hb]; simpl; [done|].
  destruct (cmp a b <? 0) eqn:E.
  - apply Z.ltb_lt in E. subst cmp le. simpl in *.
    change (b :: l ++ [a]) with ((b :: l) ++ [a]). rewrite filter_app.
    rewrite (filter_cons _ a (b :: l)), (filter_cons _ a []), filter_nil.
    case_decide as Hk; [|by rewrite app_nil_r].
    assert (filter (λ c, key c = k) (b :: l) = []) as ->; [|done].
    apply elem_of_nil_inv. intros c [Hkc Hc]%list_elem_of_filter.
    apply elem_of_cons in Hc as [->|Hc]; [lia|].
    rewrite Forall_forall in Hb. apply Hb in Hc. lia.
  - by rewrite !filter_cons, IH.
Qed.

Lemma insertion_sort_from prefix l :
  StronglySorted le prefix →
  sorts_by key (prefix ++ l) (fold_left (λ p a, place cmp a p) l prefix).
Proof.
  revert prefix. induction l as [|a l IH]; intros prefix Hp; simpl.
  - rewrite app_nil_r. by split; [|split].
  - destruct (IH (place cmp a prefix) (place_sorted a prefix Hp))
      as (Hperm & Hsorted & Hfilter).
    split; [|split; [done|]].
    + rewrite Hperm, place_perm. simpl. apply Permutation_middle.
    + intros k. rewrite Hfilter, !filter_app, place_filter by done.
      rewrite filter_app, <- app_assoc. f_equal.
      rewrite (filter_cons _ a []), (filter_cons _ a l), filter_nil.
      by case_decide.
Qed.

(** So does the insertion sort from the left. *)
Lemma insertion_sort_sorts_by l : sorts_by key l (insertion_sort cmp l).
Proof. apply (insertion_sort_from [] l). constructor. Qed.

(** The contract leaves no choice: two results for one input are equal. *)
Lemma sorts_by_unique l l1 l2 :
  sorts_by key l l1 → sorts_by key l l2 → l1 = l2.
Proof.
  intros (_ & S1 & F1) (_ & S2 & F2).
  assert (F : ∀ k, filter (λ a, key a = k) l1 = filter (λ a, key a = k) l2)
    by (intros k; by rewrite F1, F2).
  clear l F1 F2. revert l2 S2 F.
  induction S1 as [|a l1 S1 IH Ha]; intros l2 S2 F.
  - destruct l2 as [|b l2]; [done|].
    specialize (F (key b)). rewrite filter_cons_True in F; done.
  - destruct l2 as [|b l2].
    { specialize (F (key a)). rewrite filter_cons_True in F; done. }
    apply StronglySorted_inv in S2 as [S2 Hb].
    assert (key a = key b) as Hk.
    { assert (a ∈ b :: l2) as Ha2.
      { eapply (list_elem_of_filter (λ c, key c = key a)).
        rewrite <- F, filter_cons_True by done. left. }
      assert (b ∈ a :: l1) as Hb1.
      { eapply (list_elem_of_filter (λ c, key c = key b)).
        rewrite F, filter_cons_True by done. left. }
      apply elem_of_cons in Ha2 as [->|Ha2]; [done|].
      apply elem_of_cons in Hb1 as [->|Hb1]; [done|].
      rewrite Forall_forall in Ha, Hb.
      apply Ha in Hb1. apply Hb in Ha2. lia. }
    pose proof (F (key a)) as Fa.
    rewrite !filter_cons_True in Fa by done.
    injection Fa as -> Fa. f_equal.
    apply IH; [done|].
    intros k. specialize (F k). rewrite !filter_cons in F.
    case_decide; [by injection F|done].
Qed.

End SortFacts.

(** ** The callback of the normalizer *)

Lemma bind_Ok {A B : Type} (m : result A) (f : A → result B) (b : B) :
  m ≫= f = Ok b ↔ ∃ a, m = Ok a ∧ f a = Ok b.
Proof.
  destruct m as [a|e]; simpl.
  - split; [eauto|]. by intros (a' & [= ->] & ?).
  - split; [done|]. by intros (a' & ? & _).
Qed.

Ltac bind_inv H :=
  repeat match type of H with
         | _ ≫= _ = Ok _ =>
             let a := fresh "a" in
             let Ha := fresh "Ha" in
             apply bind_Ok in H as (a & Ha & H)
         end.

Lemma Math_min_least x0 rest : least (λ n, n ∈ x0 :: rest) (Math_min x0 rest).
Proof.
  unfold Math_min. revert x0.
  induction rest as [|z rest IH]; intros x0; simpl.
  - split; [left|]. intros n [->|[]%elem_of_nil]%elem_of_cons. lia.
  - destruct (IH (Z.min x0 z)) as [Hin Hle]. split.
    + apply elem_of_cons in Hin as [->|Hin]; [|by do 2 right].
      destruct (Z.min_spec x0 z) as [[_ ->]|[_ ->]]; [left|right; left].
    + intros n Hn.
      assert (n ∈ Z.min x0 z :: rest ∨ Z.min x0 z ≤ n) as [?|?];
        [|by apply Hle|].
      { rewrite !elem_of_cons in *. destruct Hn as [->|[->|?]]; auto; right; lia. }
      etrans; [apply Hle; left|done].
Qed.

Lemma Math_max_greatest x0 rest :
  greatest (λ n, n ∈ x0 :: rest) (Math_max x0 rest).
Proof.
  unfold Math_max. revert x0.
  induction rest as [|z rest IH]; intros x0; simpl.
  - split; [left|]. intros n [->|[]%elem_of_nil]%elem_of_cons. lia.
  - destruct (IH (Z.max x0 z)) as [Hin Hle]. split.
    + apply elem_of_cons in Hin as [->|Hin]; [|by do 2 right].
      destruct (Z.max_spec x0 z) as [[_ ->]|[_ ->]]; [right; left|left].
    + intros n Hn.
      assert (n ∈ Z.max x0 z :: rest ∨ n ≤ Z.max x0 z) as [?|?];
        [|by apply Hle|].
      { rewrite !elem_of_cons in *. destruct Hn as [->|[->|?]]; auto; right; lia. }
      etrans; [done|apply Hle; left].
Qed.

Lemma coordinate_nil k n : ¬ coordinate k [] n.
Proof. intros (v & []%elem_of_nil & _). Qed.

Lemma coordinate_cons k v vs n :
  coordinate k (v :: vs) n ↔ Get v k = Ok (VNumber n) ∨ coordinate k vs n.
Proof.
  unfold coordinate. split.
  - intros (v' & [->|Hin]%elem_of_cons & Hn); [by left|right; eauto].
  - intros [Hn|(v' & Hin & Hn)].
    + exists v. split; [left|done].
    + exists v'. split; [by right|done].
Qed.

(** The loop collects exactly the numeric coordinates, axis by axis. *)
Lemma forEach_push_vertex vs acc xs ys :
  Array_forEach push_vertex acc vs = Ok (xs, ys) →
  (∀ n, n ∈ xs ↔ n ∈ acc.1 ∨ coordinate "x" vs n) ∧
  (∀ n, n ∈ ys ↔ n ∈ acc.2 ∨ coordinate "y" vs n).
Proof.
  revert acc. induction vs as [|v vs IH]; intros [xs0 ys0] Hrun; simpl in *.
  - injection Hrun as <- <-.
    split; intros n; (split; [by left|]);
      by intros [?|?%coordinate_nil].
  - bind_inv Hrun. unfold push_vertex in Ha. bind_inv Ha.
    injection Ha as <-. apply IH in Hrun as [Hx Hy]. simpl in *.
    split; intros n; [rewrite Hx|rewrite Hy]; rewrite coordinate_cons.
    + rewrite Ha0. destruct a0; rewrite ?elem_of_app, ?list_elem_of_singleton;
        intuition congruence.
    + rewrite Ha1. destruct a1; rewrite ?elem_of_app, ?list_elem_of_singleton;
        intuition congruence.
Qed.

(** The loop does not throw on an array of vertices. *)
Lemma forEach_push_vertex_total vs acc :
  forallb is_vertex vs = true →
  ∃ r, Array_forEach push_vertex acc vs = Ok r.
Proof.
  revert acc. induction vs as [|v vs IH]; intros acc Hvs; simpl in *.
  - eauto.
  - apply andb_prop in Hvs as [Hv Hvs].
    destruct v; try discriminate. simpl. by apply IH.
Qed.

(** [verts] of line 31 is the vertex list of the annotation, whenever it is
    an array. *)
Lemma verts_of_array face vs :
  verts_of face = Ok (VArray vs) → vs = vertices face.
Proof.
  unfold verts_of. intros Hrun. bind_inv Hrun. injection Hrun as Hrun.
  destruct face as [| | | | |props|]; simpl in Ha; try discriminate;
    injection Ha as <-; simpl in *;
    try (injection Ha0 as <-; simpl in Hrun; by injection Hrun as <-).
  destruct (own_prop props "boundingPoly") as [| | | | |poly|]; simpl in *;
    injection Ha0 as <-; simpl in Hrun; try (by injection Hrun as <-).
  unfold or_else in Hrun.
  destruct (own_prop poly "vertices"); simpl in *;
    repeat case_match; by simplify_eq.
Qed.

Lemma verts_of_RawAnnotation face :
  RawAnnotation face = true →
  verts_of face = Ok (VArray (vertices face)) ∧
  forallb is_vertex (vertices face) = true.
Proof.
  destruct face as [| | | | |props|]; try discriminate.
  unfold verts_of. simpl.
  destruct (own_prop props "boundingPoly") as [| | | | |poly|];
    try discriminate; simpl; try done.
  destruct (own_prop poly "vertices"); try discriminate; simpl; done.
Qed.

(** What the callback returns, in the words of the specification: [null]
    exactly for a degenerate annotation, and otherwise the box spanned by
    the least and greatest numeric coordinate of each axis. *)
Lemma face_rect_spec face o :
  face_rect face = Ok o →
  match o with
  | None => degenerate face
  | Some r =>
      least (coordinate "x" (vertices face)) (x r) ∧
      greatest (coordinate "x" (vertices face)) (x r + w r) ∧
      least (coordinate "y" (vertices face)) (y r) ∧
      greatest (coordinate "y" (vertices face)) (y r + h r)
  end.
Proof.
  unfold face_rect. intros Hrun. bind_inv Hrun.
  destruct a as [| | | | | |vs]; try discriminate.
  apply verts_of_array in Ha as ->. simpl in Ha0.
  destruct a0 as [xs ys].
  apply forEach_push_vertex in Ha0 as [Hx Hy]. simpl in Hx, Hy.
  assert (∀ k (S : list Z),
    (∀ n, n ∈ S ↔ n ∈ [] ∨ coordinate k (vertices face) n) →
    ∀ n, n ∈ S ↔ coordinate k (vertices face) n) as Hset.
  { intros k S HS n. rewrite HS, elem_of_nil. tauto. }
  pose proof (Hset _ _ Hx) as Hx'. pose proof (Hset _ _ Hy) as Hy'.
  clear Hset Hx Hy. rename Hx' into Hx, Hy' into Hy.
  destruct xs as [|x0 xs].
  { injection Hrun as <-. left. intros [n Hn]. apply Hx in Hn.
    by apply elem_of_nil in Hn. }
  destruct ys as [|y0 ys].
  { injection Hrun as <-. right. intros [n Hn]. apply Hy in Hn.
    by apply elem_of_nil in Hn. }
  injection Hrun as <-. simpl.
  destruct (Math_min_least x0 xs) as [Hx1 Hx2].
  destruct (Math_max_greatest x0 xs) as [Hx3 Hx4].
  destruct (Math_min_least y0 ys) as [Hy1 Hy2].
  destruct (Math_max_greatest y0 ys) as [Hy3 Hy4].
  replace (Math_min x0 xs + (Math_max x0 xs - Math_min x0 xs))
    with (Math_max x0 xs) by lia.
  replace (Math_min y0 ys + (Math_max y0 ys - Math_min y0 ys))
    with (Math_max y0 ys) by lia.
  unfold least, greatest.
  repeat split; try (by apply Hx); try (by apply Hy);
    intros n Hn; first [apply Hx2|apply Hx4|apply Hy2|apply Hy4];
    first [by apply Hx|by apply Hy].
Qed.

(** The callback does not throw on an annotation of the agreed shape. *)
Lemma face_rect_total face :
  RawAnnotation face = true → ∃ o, face_rect face = Ok o.
Proof.
  intros [Hverts Hvs]%verts_of_RawAnnotation.
  unfold face_rect. rewrite Hverts. simpl.
  destruct (forEach_push_vertex_total (vertices face) ([], []) Hvs)
    as [[xs ys] ->]. simpl.
  destruct xs, ys; eauto.
Qed.

Lemma face_rect_extent face r :
  face_rect face = Ok (Some r) → 0 ≤ w r ∧ 0 ≤ h r.
Proof.
  intros ([Hx _] & [_ HX] & [Hy _] & [_ HY])%face_rect_spec.
  apply HX in Hx. apply HY in Hy. lia.
Qed.

Lemma face_rect_degenerate face o :
  degenerate face → face_rect face = Ok o → o = None.
Proof.
  intros Hdeg Hrun%face_rect_spec. destruct o as [r|]; [|done].
  destruct Hrun as ([Hx _] & _ & [Hy _] & _).
  destruct Hdeg as [Hd|Hd]; destruct Hd; eauto.
Qed.

(** ** The pipeline [map], [filter], [sort] *)

Lemma Array_map_Forall2 {A B : Type} (f : A → result B) l bs :
  Array_map f l = Ok bs ↔ Forall2 (λ a b, f a = Ok b) l bs.
Proof.
  revert bs. induction l as [|a l IH]; intros bs; simpl.
  - split; [by intros [= <-]|by intros ->%Forall2_nil_inv_l].
  - split.
    + intros Hrun. bind_inv Hrun. injection Hrun as <-.
      constructor; [done|by apply IH].
    + intros (b & bs' & Hb & Hbs & ->)%Forall2_cons_inv_l.
      apply IH in Hbs. by rewrite Hb, Hbs.
Qed.

Lemma Array_map_app {A B : Type} (f : A → result B) l1 l2 :
  Array_map f (l1 ++ l2)
  = bs1 ← Array_map f l1; bs2 ← Array_map f l2; Ok (bs1 ++ bs2).
Proof.
  induction l1 as [|a l1 IH]; simpl.
  - by destruct (Array_map f l2).
  - destruct (f a); simpl; [|done]. rewrite IH.
    destruct (Array_map f l1); simpl; [|done].
    by destruct (Array_map f l2).
Qed.

Lemma Array_map_total {A B : Type} (f : A → result B) l :
  Forall (λ a, ∃ b, f a = Ok b) l → ∃ bs, Array_map f l = Ok bs.
Proof.
  induction 1 as [|a l [b Hb] _ [bs Hbs]]; simpl; [eauto|].
  rewrite Hb, Hbs. simpl. eauto.
Qed.

Lemma filter_Boolean_app {A : Type} (l1 l2 : list (option A)) :
  filter_Boolean (l1 ++ l2) = filter_Boolean l1 ++ filter_Boolean l2.
Proof.
  induction l1 as [|[a|] l1 IH]; simpl; [done| |done]. by rewrite IH.
Qed.

Lemma filter_Boolean_elem {A : Type} (l : list (option A)) a :
  a ∈ filter_Boolean l ↔ Some a ∈ l.
Proof.
  induction l as [|[b|] l IH]; simpl.
  - by rewrite !elem_of_nil.
  - rewrite !elem_of_cons, IH. split; intros [?|?]; simplify_eq; auto.
  - rewrite elem_of_cons, IH. split; [auto|]. by intros [?|?].
Qed.

Lemma filter_Boolean_length {A : Type} (l : list (option A)) :
  (length (filter_Boolean l) ≤ length l)%nat ∧
  (None ∈ l → length (filter_Boolean l) < length l)%nat.
Proof.
  induction l as [|[a|] l [IH1 IH2]]; simpl.
  - split; [lia|]. by intros ?%elem_of_nil.
  - split; [lia|]. intros [?|?]%elem_of_cons; [done|].
    specialize (IH2 ltac:(done)). lia.
  - split; [lia|]. intros _. lia.
Qed.

Lemma faces_Ok annotations out :
  faces annotations = Ok out ↔
  ∃ mapped, Forall2 (λ face o, face_rect face = Ok o) annotations mapped ∧
            out = Array_sort by_x (filter_Boolean mapped).
Proof.
  unfold faces, faces_with. rewrite bind_Ok.
  split; intros (mapped & Hmap & Hout); exists mapped.
  - apply Array_map_Forall2 in Hmap. by injection Hout as <-.
  - apply Array_map_Forall2 in Hmap. by subst.
Qed.

(** ** The claims about the normalizer *)

(** C1: an annotation of the agreed shape whose vertex list has a numeric x
    and a numeric y yields exactly one rectangle, [{x: minX, y: minY,
    w: maxX - minX, h: maxY - minY}] with the least and greatest numeric
    coordinate of each axis; a single vertex gives [w = 0] and [h = 0]. *)
Theorem bounding_box_of_annotation face :
  RawAnnotation face = true →
  (∃ n, coordinate "x" (vertices face) n) →
  (∃ n, coordinate "y" (vertices face) n) →
  ∃ minX maxX minY maxY,
    least (coordinate "x" (vertices face)) minX ∧
    greatest (coordinate "x" (vertices face)) maxX ∧
    least (coordinate "y" (vertices face)) minY ∧
    greatest (coordinate "y" (vertices face)) maxY ∧
    face_rect face = Ok (Some (mkRect minX minY (maxX - minX) (maxY - minY))) ∧
    faces [face] = Ok [mkRect minX minY (maxX - minX) (maxY - minY)] ∧
    (∀ v, vertices face = [v] → maxX - minX = 0 ∧ maxY - minY = 0).
Proof.
  intros Hshape Hx Hy.
  destruct (face_rect_total face Hshape) as [o Hrun].
  pose proof (face_rect_spec face o Hrun) as Hspec.
  destruct o as [[minX minY w0 h0]|]; [|by destruct Hspec as [[]|[]]].
  simpl in Hspec. destruct Hspec as (Hx1 & Hx2 & Hy1 & Hy2).
  exists minX, (minX + w0), minY, (minY + h0).
  replace (minX + w0 - minX) with w0 by lia.
  replace (minY + h0 - minY) with h0 by lia.
  do 4 (split; [done|]). split; [done|]. split.
  { unfold faces, faces_with. simpl. by rewrite Hrun. }
  assert (∀ k v lo hi,
    vertices face = [v] →
    least (coordinate k (vertices face)) lo →
    greatest (coordinate k (vertices face)) hi → lo = hi) as Hone.
  { intros k v lo hi Hv [(v1 & Hv1 & Hn1) _] [(v2 & Hv2 & Hn2) _].
    rewrite Hv in Hv1, Hv2.
    apply list_elem_of_singleton in Hv1 as ->.
    apply list_elem_of_singleton in Hv2 as ->.
    rewrite Hn1 in Hn2. by injection Hn2. }
  intros v Hv.
  pose proof (Hone _ _ _ _ Hv Hx1 Hx2).
  pose proof (Hone _ _ _ _ Hv Hy1 Hy2). lia.
Qed.

(** C3: an annotation of the agreed shape with no numeric x, or with no
    numeric y, among its vertices yields [null] and leaves no trace in the
    output: the result is that of the list without it. *)
Theorem degenerate_annotation_dropped face :
  RawAnnotation face = true →
  degenerate face →
  face_rect face = Ok None ∧
  ∀ before after,
    faces (before ++ face :: after) = faces (before ++ after).
Proof.
  intros Hshape Hdeg.
  destruct (face_rect_total face Hshape) as [o Hrun].
  pose proof (face_rect_degenerate face o Hdeg Hrun) as ->.
  split; [done|]. intros before after.
  unfold faces, faces_with. rewrite !Array_map_app. simpl. rewrite Hrun.
  destruct (Array_map face_rect before) as [bs1|]; simpl; [|done].
  destruct (Array_map face_rect after) as [bs2|]; simpl; [|done].
  by rewrite !filter_Boolean_app.
Qed.

(** C4: every rectangle of the output has [w >= 0] and [h >= 0]. *)
Theorem extent_nonnegative annotations out :
  faces annotations = Ok out →
  Forall (λ r, 0 ≤ w r ∧ 0 ≤ h r) out.
Proof.
  intros (mapped & Hmap & ->)%faces_Ok.
  apply Forall_forall. intros r Hr.
  rewrite (Array_sort_perm x) in Hr.
  apply filter_Boolean_elem in Hr.
  apply list_elem_of_lookup in Hr as [i Hi].
  destruct (Forall2_lookup_r _ _ _ _ _ Hmap Hi) as (face & _ & Hrun).
  by apply face_rect_extent in Hrun.
Qed.

(** C5: the output is no longer than the input, shorter when some input
    annotation is degenerate, and empty for the empty input. *)
Theorem output_length :
  faces [] = Ok [] ∧
  ∀ annotations out,
    faces annotations = Ok out →
    (length out ≤ length annotations)%nat ∧
    (Exists degenerate annotations →
     (length out < length annotations)%nat).
Proof.
  split; [done|].
  intros annotations out (mapped & Hmap & ->)%faces_Ok.
  rewrite (Permutation_length (Array_sort_perm x _)).
  rewrite (Forall2_length _ _ _ Hmap).
  destruct (filter_Boolean_length mapped) as [Hle Hlt].
  split; [done|]. intros Hex. apply Hlt.
  apply Exists_exists in Hex as (face & Hin & Hdeg).
  apply list_elem_of_lookup in Hin as [i Hi].
  destruct (Forall2_lookup_l _ _ _ _ _ Hmap Hi) as (o & Ho & Hrun).
  apply (face_rect_degenerate _ _ Hdeg) in Hrun as ->.
  by apply list_elem_of_lookup_2 in Ho.
Qed.

(** C6: on a list of annotations of the agreed shape the normalizer throws
    nothing and returns a list, which holds the rectangles of the
    annotations that are not degenerate and nothing else. *)
Theorem normalizer_total annotations :
  Forall (λ face, RawAnnotation face = true) annotations →
  ∃ out,
    faces annotations = Ok out ∧
    ∀ r, r ∈ out ↔
         ∃ face, face ∈ annotations ∧ ¬ degenerate face ∧
                 face_rect face = Ok (Some r).
Proof.
  intros Hshape.
  destruct (Array_map_total face_rect annotations) as [mapped Hmap].
  { eapply Forall_impl; [exact Hshape|]. apply face_rect_total. }
  exists (Array_sort by_x (filter_Boolean mapped)). split.
  { unfold faces, faces_with. by rewrite Hmap. }
  apply Array_map_Forall2 in Hmap.
  intros r. rewrite (Array_sort_perm x), filter_Boolean_elem. split.
  - intros [i Hi]%list_elem_of_lookup.
    destruct (Forall2_lookup_r _ _ _ _ _ Hmap Hi) as (face & Hf & Hrun).
    exists face. split; [by eapply list_elem_of_lookup_2|]. split; [|done].
    intros Hdeg. by apply (face_rect_degenerate _ _ Hdeg) in Hrun.
  - intros (face & [i Hi]%list_elem_of_lookup & _ & Hrun).
    destruct (Forall2_lookup_l _ _ _ _ _ Hmap Hi) as (o & Ho & Hrun').
    rewrite Hrun in Hrun'. injection Hrun' as <-.
    by eapply list_elem_of_lookup_2.
Qed.

(** Any sort that meets the contract can stand for the sort of the engine:
    the pipeline returns what it returns with [Array_sort]. *)
Lemma faces_with_conforming_sort
  (sort : (Rect → Rect → Z) → list Rect → list Rect) :
  (∀ l, sorts_by x l (sort by_x l)) →
  ∀ annotations, faces_with sort annotations = faces annotations.
Proof.
  intros Hsort annotations. unfold faces, faces_with.
  destruct (Array_map face_rect annotations) as [mapped|]; simpl; [|done].
  f_equal. eapply sorts_by_unique; [apply Hsort|].
  apply (Array_sort_sorts_by x).
Qed.

(** ** Order of the output *)

Lemma sort_insert_fmap {A B : Type} (f : A → B) (cmp : B → B → Z) a l :
  f <$> sort_insert (λ a b, cmp (f a) (f b)) a l
  = sort_insert cmp (f a) (f <$> l).
Proof.
  induction l as [|b l IH]; csimpl; [done|].
  destruct (0 <? cmp (f a) (f b)); csimpl; [|done]. by rewrite IH.
Qed.

Lemma Array_sort_fmap {A B : Type} (f : A → B) (cmp : B → B → Z) l :
  f <$> Array_sort (λ a b, cmp (f a) (f b)) l = Array_sort cmp (f <$> l).
Proof.
  unfold Array_sort. induction l as [|a l IH]; [done|].
  rewrite fmap_cons. simpl foldr. rewrite <- IH.
  apply sort_insert_fmap.
Qed.

Lemma StronglySorted_filter {A : Type} (R : relation A) (P : A → Prop)
  `{∀ a, Decision (P a)} l :
  StronglySorted R l → StronglySorted R (filter P l).
Proof.
  induction 1 as [|a l Hl IH Ha]; [constructor|].
  rewrite filter_cons. case_decide; [|done].
  constructor; [done|].
  apply Forall_forall. intros b [_ Hb]%list_elem_of_filter.
  rewrite Forall_forall in Ha. by apply Ha.
Qed.

Lemma tag_from_snd n mapped : (tag_from n mapped).*2 = filter_Boolean mapped.
Proof.
  revert n. induction mapped as [|[r|] mapped IH]; intros n; simpl;
    [done| |done]. by rewrite IH.
Qed.

Lemma tag_from_elem n mapped i r :
  (i, r) ∈ tag_from n mapped ↔
  (n ≤ i)%nat ∧ mapped !! (i - n)%nat = Some (Some r).
Proof.
  revert n. induction mapped as [|o mapped IH]; intros n.
  - simpl. rewrite elem_of_nil. split; [done|]. by intros [_ ?].
  - assert ((i, r) ∈ tag_from (S n) mapped ↔
            (n < i)%nat ∧ (o :: mapped) !! (i - n)%nat = Some (Some r)) as Hrest.
    { rewrite IH. split; intros [Hle Hi]; (split; [lia|]).
      - by replace (i - n)%nat with (S (i - S n)) by lia.
      - by replace (i - n)%nat with (S (i - S n)) in Hi by lia. }
    destruct o as [r0|]; simpl tag_from; [rewrite elem_of_cons|];
      rewrite Hrest; clear Hrest IH.
    + split.
      * intros [[= -> ->]|[Hlt Hi]]; [|split; [lia|done]].
        split; [lia|]. by rewrite Nat.sub_diag.
      * intros [Hle Hi]. destruct (decide (i = n)) as [->|Hne].
        -- rewrite Nat.sub_diag in Hi. left. by simplify_eq/=.
        -- right. split; [lia|done].
    + split; [intros [Hlt Hi]; split; [lia|done]|].
      intros [Hle Hi]. destruct (decide (i = n)) as [->|Hne].
      * rewrite Nat.sub_diag in Hi. by simplify_eq/=.
      * split; [lia|done].
Qed.

Lemma tag_from_sorted n mapped :
  StronglySorted (λ a b : nat * Rect, (a.1 < b.1)%nat) (tag_from n mapped).
Proof.
  revert n. induction mapped as [|[r|] mapped IH]; intros n; simpl;
    [constructor| |done].
  constructor; [done|].
  apply Forall_forall. intros [i r'] [Hi _]%tag_from_elem. simpl. lia.
Qed.

Lemma tag_from_NoDup n mapped : NoDup (tag_from n mapped).*1.
Proof.
  revert n. induction mapped as [|[r|] mapped IH]; intros n; simpl;
    [constructor| |done].
  apply NoDup_cons. split; [|done].
  intros ([i r'] & -> & [Hi _]%tag_from_elem)%list_elem_of_fmap.
  simpl in Hi. lia.
Qed.

(** C2: the output is in non-decreasing order of [x], and two rectangles of
    equal [x] stand in the order of the annotations they come from.  Each
    output rectangle is paired with the input position of its annotation;
    every surviving annotation is there once. *)
Theorem output_sorted_stable annotations out :
  faces annotations = Ok out →
  StronglySorted (λ a b, x a ≤ x b) out ∧
  ∃ tagged : list (nat * Rect),
    out = tagged.*2 ∧
    NoDup tagged.*1 ∧
    (∀ i r, (i, r) ∈ tagged ↔
            ∃ face, annotations !! i = Some face ∧
                    face_rect face = Ok (Some r)) ∧
    (∀ s1 a s2 b s3,
        tagged = s1 ++ a :: s2 ++ b :: s3 →
        x a.2 = x b.2 → (a.1 < b.1)%nat).
Proof.
  intros (mapped & Hmap & ->)%faces_Ok.
  split; [apply (Array_sort_sorted x)|].
  set (key := λ t : nat * Rect, x t.2).
  exists (Array_sort (λ a b, key a - key b) (tag_from 0 mapped)).
  split; [|split; [|split]].
  - rewrite <- tag_from_snd with (n := 0%nat).
    symmetry. apply (Array_sort_fmap snd by_x).
  - rewrite (Array_sort_perm key). apply tag_from_NoDup.
  - intros i r. rewrite (Array_sort_perm key), tag_from_elem, Nat.sub_0_r.
    split.
    + intros [_ Hi].
      destruct (Forall2_lookup_r _ _ _ _ _ Hmap Hi) as (face & Hf & Hrun).
      eauto.
    + intros (face & Hf & Hrun). split; [lia|].
      destruct (Forall2_lookup_l _ _ _ _ _ Hmap Hf) as (o & Ho & Hrun').
      rewrite Hrun in Hrun'. by injection Hrun' as <-.
  - intros s1 a s2 b s3 Hsplit Hk.
    pose proof (Array_sort_filter key (key a) (tag_from 0 mapped)) as Hst.
    rewrite Hsplit in Hst.
    rewrite filter_app, filter_cons_True, filter_app, filter_cons_True in Hst
      by (unfold key; done).
    pose proof (StronglySorted_filter _ (λ t, key t = key a) _
                  (tag_from_sorted 0 mapped)) as Hs.
    rewrite <- Hst in Hs.
    apply StronglySorted_app_1_r, StronglySorted_inv in Hs as [_ Hs].
    rewrite Forall_forall in Hs. apply Hs.
    apply elem_of_app. right. left.
Qed.

(** ** The claims at the scenarios *)

Lemma bounding_box_of_annotation_witness :
  RawAnnotation face_point = true ∧
  ∃ r, faces [face_point] = Ok [r] ∧ w r = 0 ∧ h r = 0.
Proof.
  split; [reflexivity|].
  destruct (bounding_box_of_annotation face_point)
    as (minX & maxX & minY & maxY & _ & _ & _ & _ & _ & Hrun & Hzero).
  - reflexivity.
  - exists (-7), (vertex (Some (-7)) (Some 3)). split; [left|reflexivity].
  - exists 3, (vertex (Some (-7)) (Some 3)). split; [left|reflexivity].
  - destruct (Hzero _ eq_refl) as [Hw Hh]. eauto.
Defined.

Lemma output_sorted_stable_witness :
  StronglySorted (λ a b, x a ≤ x b)
    [mkRect 10 0 10 1; mkRect 10 0 10 2; mkRect 30 0 30 10].
Proof.
  apply (output_sorted_stable faces_ties). reflexivity.
Defined.

Lemma degenerate_annotation_dropped_witness :
  face_rect face_B = Ok None ∧
  ∀ before after, faces (before ++ face_B :: after) = faces (before ++ after).
Proof.
  apply (degenerate_annotation_dropped face_B); [reflexivity|].
  right. intros (n & v & Hv & Hn).
  apply list_elem_of_singleton in Hv as ->. discriminate Hn.
Defined.

Lemma extent_nonnegative_witness :
  Forall (λ r, 0 ≤ w r ∧ 0 ≤ h r)
    [mkRect 10 0 10 1; mkRect 10 0 10 2; mkRect 30 0 30 10].
Proof.
  apply (extent_nonnegative faces_ties). reflexivity.
Defined.

Lemma output_length_witness :
  (length (A := Rect) [] ≤ length [face_B])%nat ∧
  (Exists degenerate [face_B] → (length (A := Rect) [] < length [face_B])%nat).
Proof.
  apply (proj2 output_length [face_B] []). reflexivity.
Defined.

Lemma normalizer_total_witness :
  ∃ out,
    faces (face_B :: faces_ties) = Ok out ∧
    ∀ r, r ∈ out ↔
         ∃ face, face ∈ face_B :: faces_ties ∧ ¬ degenerate face ∧
                 face_rect face = Ok (Some r).
Proof.
  apply (normalizer_total (face_B :: faces_ties)).
  repeat constructor.
Defined.

(** ** The storage relay *)

Example upload_default :
  @uploadPdfDirect example_runtime (upload_request "QUJD" None) ∅
  = (mkResponse 200 []
       (Json (VObject [("ok", VBool true);
                       ("objectName", VString "menu_current.pdf")])),
     {[ "menu_current.pdf" := @base64 example_runtime "QUJD" ]}).
Proof. reflexivity. Qed.

Example upload_trimmed :
  (@uploadPdfDirect example_runtime
     (upload_request "QUJD" (Some "  boardpass_current.pdf ")) ∅).2
  = {[ "boardpass_current.pdf" := @base64 example_runtime "QUJD" ]}.
Proof. reflexivity. Qed.

Example upload_not_a_string :
  @uploadPdfDirect example_runtime
    (VObject [("pdfBase64", VString "QUJD"); ("objectName", VNumber 5)]) ∅
  = (mkResponse 500 [] (Json (VObject [("error", VString "upload failed")])),
     ∅).
Proof. reflexivity. Qed.

Ltac run := cbn [mbind result_bind negb fst snd].

Section RelayFacts.
Context `{Runtime}.

Lemma OptGet_field req_body k : OptGet req_body k = Ok (field req_body k).
Proof. by destruct req_body. Qed.

Lemma Set_has_elem s k : Set_has s k = true ↔ k ∈ s.
Proof.
  unfold Set_has. induction s as [|k' s IH]; simpl.
  - rewrite elem_of_nil. split; [done|tauto].
  - rewrite orb_true_iff, IH, elem_of_cons, String.eqb_eq. tauto.
Qed.

(** The bucket after an upload is the bucket before, or the bucket before
    with one write under the effective object name. *)
Lemma uploadPdfDirect_bucket req_body b :
  (uploadPdfDirect req_body b).2 = b ∨
  ∃ objectName data,
    objectName_of req_body = Ok objectName ∧
    (uploadPdfDirect req_body b).2 = <[objectName := data]> b.
Proof.
  unfold uploadPdfDirect, uploadPdfDirect_try.
  rewrite OptGet_field. run.
  destruct (truthy (field req_body "pdfBase64")); run; [|by left].
  destruct (objectName_of req_body) as [objectName|]; run; [|by left].
  destruct (Set_has ALLOWED_OBJECTS objectName); run; [|by left].
  destruct (Buffer_from (field req_body "pdfBase64")) as [data|]; run;
    [|by left].
  unfold file_save. destruct (sdk_rejects _); run; [by left|].
  right. eauto.
Qed.

Lemma download_insert_legacy e content b :
  download e (<[LEGACY_BOARDING_OBJECT := content]> b) = download e b.
Proof.
  destruct e; unfold download, menu_current, boardpass_current,
    boarding_current, serve, file_download;
    by rewrite lookup_insert_ne.
Qed.

(** C8: an upload with a payload whose object name, defaulted and trimmed
    as line 84 does, is not on the allow-list is answered with status 400
    and leaves the bucket as it was. *)
Theorem invalid_objectName_rejected req_body b objectName :
  truthy (field req_body "pdfBase64") = true →
  objectName_of req_body = Ok objectName →
  objectName ∉ ALLOWED_OBJECTS →
  uploadPdfDirect req_body b
  = (mkResponse 400 []
       (Json (VObject [("error", VString "Invalid objectName");
                       ("allowed", VArray [VString "menu_current.pdf";
                                           VString "boardpass_current.pdf";
                                           VString "boarding_current.pdf"])])),
     b).
Proof.
  intros Hpdf Hname Hnot.
  unfold uploadPdfDirect, uploadPdfDirect_try.
  rewrite OptGet_field. run. rewrite Hpdf. run. rewrite Hname. run.
  destruct (Set_has ALLOWED_OBJECTS objectName) eqn:Hhas; [|done].
  by apply Set_has_elem in Hhas.
Qed.

(** C9: [GET /boarding_current] sends the object stored as
    [boardpass_current.pdf]; what is stored as [boarding_current.pdf]
    changes the answer of no download endpoint, so an upload under that
    name is never served. *)
Theorem legacy_endpoint_reads_boardpass b :
  (∀ content,
      sdk_rejects (Download BOARDPASS_OBJECT) = false →
      b !! BOARDPASS_OBJECT = Some content →
      boarding_current b
      = mkResponse 200
          [("Content-Type", "application/pdf"); ("Cache-Control", "no-store")]
          (Pdf content)) ∧
  (b !! BOARDPASS_OBJECT = None → status (boarding_current b) = 500) ∧
  (status (boarding_current b) = 200 →
   boarding_current b = boardpass_current b) ∧
  (∀ e content,
      download e (<[LEGACY_BOARDING_OBJECT := content]> b) = download e b) ∧
  (∀ req_body e,
      objectName_of req_body = Ok LEGACY_BOARDING_OBJECT →
      download e (uploadPdfDirect req_body b).2 = download e b).
Proof.
  split; [|split; [|split; [|split]]].
  - intros content Hsdk Hb.
    unfold boarding_current, serve, file_download. by rewrite Hsdk, Hb.
  - intros Hb. unfold boarding_current, serve, file_download. rewrite Hb.
    by destruct (sdk_rejects _).
  - unfold boarding_current, boardpass_current, serve.
    by destruct (file_download b BOARDPASS_OBJECT).
  - intros e content. apply download_insert_legacy.
  - intros req_body e Hname.
    destruct (uploadPdfDirect_bucket req_body b)
      as [->|(objectName & data & Hname' & ->)]; [done|].
    rewrite Hname in Hname'. injection Hname' as <-.
    apply download_insert_legacy.
Qed.

(** C10: an upload with a payload and no [objectName], or a falsy one, goes
    to [menu_current.pdf]: the decoded bytes are written there and the
    answer is 200 with [objectName: "menu_current.pdf"]. *)
Theorem default_objectName_is_menu req_body b data :
  truthy (field req_body "pdfBase64") = true →
  truthy (field req_body "objectName") = false →
  Buffer_from (field req_body "pdfBase64") = Ok data →
  sdk_rejects (Save MENU_OBJECT data) = false →
  uploadPdfDirect req_body b
  = (mkResponse 200 []
       (Json (VObject [("ok", VBool true);
                       ("objectName", VString "menu_current.pdf")])),
     <["menu_current.pdf" := data]> b).
Proof.
  intros Hpdf Hname Hbuf Hsdk.
  unfold uploadPdfDirect, uploadPdfDirect_try, objectName_of.
  rewrite !OptGet_field. run. rewrite Hpdf. run.
  unfold or_else. rewrite Hname. unfold call_trim.
  change (trim MENU_OBJECT) with MENU_OBJECT. run.
  change (Set_has ALLOWED_OBJECTS MENU_OBJECT) with true. run.
  rewrite Hbuf. run. unfold file_save. by rewrite Hsdk.
Qed.

End RelayFacts.

Lemma invalid_objectName_rejected_witness :
  status (@uploadPdfDirect example_runtime
            (upload_request "QUJD" (Some " evil.pdf ")) example_bucket).1 = 400 ∧
  (@uploadPdfDirect example_runtime
     (upload_request "QUJD" (Some " evil.pdf ")) example_bucket).2
  = example_bucket.
Proof.
  rewrite (@invalid_objectName_rejected example_runtime
             (upload_request "QUJD" (Some " evil.pdf ")) example_bucket
             "evil.pdf"); [done|reflexivity|reflexivity|].
  intros Hin. repeat (apply elem_of_cons in Hin as [?|Hin]; [discriminate|]).
  by apply elem_of_nil in Hin.
Defined.

Lemma legacy_endpoint_reads_boardpass_witness :
  @boarding_current example_runtime example_bucket
  = mkResponse 200
      [("Content-Type", "application/pdf"); ("Cache-Control", "no-store")]
      (Pdf [Byte.x01]).
Proof.
  apply (proj1 (@legacy_endpoint_reads_boardpass example_runtime
                  example_bucket)); reflexivity.
Defined.

Lemma default_objectName_is_menu_witness :
  @uploadPdfDirect example_runtime (upload_request "QUJD" None) example_bucket
  = (mkResponse 200 []
       (Json (VObject [("ok", VBool true);
                       ("objectName", VString "menu_current.pdf")])),
     <["menu_current.pdf" := @base64 example_runtime "QUJD"]> example_bucket).
Proof.
  apply (@default_objectName_is_menu example_runtime); reflexivity.
Defined.

(** ** Beyond the claims: the normalizer *)

(** The box contains every numeric coordinate of the polygon. *)
Theorem face_rect_contains face r :
  face_rect face = Ok (Some r) →
  (∀ n, coordinate "x" (vertices face) n → x r ≤ n ≤ x r + w r) ∧
  (∀ n, coordinate "y" (vertices face) n → y r ≤ n ≤ y r + h r).
Proof.
  intros ([_ Hx] & [_ HX] & [_ Hy] & [_ HY])%face_rect_spec.
  split; intros n Hn; split; auto.
Qed.

Lemma face_rect_contains_witness :
  coordinate "x" (vertices face_A) 50 ∧ 10 ≤ 50 ≤ 10 + 40.
Proof.
  assert (coordinate "x" (vertices face_A) 50) as Hn.
  { exists (vertex (Some 50) (Some 40)). split; [right; left|reflexivity]. }
  split; [exact Hn|].
  apply (proj1 (face_rect_contains face_A (mkRect 10 5 40 35) eq_refl) 50 Hn).
Defined.

Lemma least_unique (S S' : Z → Prop) m m' :
  (∀ n, S n ↔ S' n) → least S m → least S' m' → m = m'.
Proof.
  intros HS [Hm Hle] [Hm' Hle'].
  apply HS in Hm. apply HS in Hm'. apply Hle in Hm'. apply Hle' in Hm. lia.
Qed.

Lemma greatest_unique (S S' : Z → Prop) m m' :
  (∀ n, S n ↔ S' n) → greatest S m → greatest S' m' → m = m'.
Proof.
  intros HS [Hm Hle] [Hm' Hle'].
  apply HS in Hm. apply HS in Hm'. apply Hle in Hm'. apply Hle' in Hm. lia.
Qed.

(** The result for an annotation depends on its two numeric sets and on
    nothing else: not on the order of the vertices, on repeated vertices,
    or on fields that are not numbers. *)
Theorem face_rect_depends_on_sets face face' o o' :
  face_rect face = Ok o →
  face_rect face' = Ok o' →
  (∀ n, coordinate "x" (vertices face) n ↔ coordinate "x" (vertices face') n) →
  (∀ n, coordinate "y" (vertices face) n ↔ coordinate "y" (vertices face') n) →
  o = o'.
Proof.
  intros Hrun%face_rect_spec Hrun'%face_rect_spec Hx Hy.
  destruct o as [r|], o' as [r'|]; simpl in *.
  - destruct Hrun as (Hx1 & Hx2 & Hy1 & Hy2).
    destruct Hrun' as (Hx1' & Hx2' & Hy1' & Hy2').
    pose proof (least_unique _ _ _ _ Hx Hx1 Hx1').
    pose proof (greatest_unique _ _ _ _ Hx Hx2 Hx2').
    pose proof (least_unique _ _ _ _ Hy Hy1 Hy1').
    pose proof (greatest_unique _ _ _ _ Hy Hy2 Hy2').
    destruct r, r'; simpl in *. f_equal. f_equal; lia.
  - destruct Hrun as ([Hx1 _] & _ & [Hy1 _] & _).
    destruct Hrun' as [Hd|Hd]; destruct Hd; eexists;
      [by apply Hx|by apply Hy].
  - destruct Hrun' as ([Hx1 _] & _ & [Hy1 _] & _).
    destruct Hrun as [Hd|Hd]; destruct Hd; eexists;
      [by apply Hx|by apply Hy].
  - done.
Qed.

Lemma face_rect_depends_on_sets_witness :
  Some (mkRect 10 5 40 35) = Some (mkRect 10 5 40 35).
Proof.
  apply (face_rect_depends_on_sets face_A
           (annotation [vertex (Some 50) (Some 40); vertex (Some 10) (Some 5);
                        vertex (Some 50) (Some 40)]));
    [reflexivity|reflexivity| |];
    intros n; unfold coordinate; simpl;
    (split; intros (v & Hv & Hn); exists v; (split; [|exact Hn]);
     rewrite !elem_of_cons in *; tauto).
Defined.

(** *** When the normalizer throws *)

Lemma Get_field v k : nullish v = false → Get v k = Ok (field v k).
Proof. by destruct v. Qed.

Lemma Get_nullish v k : nullish v = true → Get v k = Throw TypeError.
Proof. by destruct v. Qed.

Lemma OptGet_is_field v k : OptGet v k = Ok (field v k).
Proof. by destruct v. Qed.

Lemma verts_of_field face :
  nullish face = false →
  verts_of face
  = Ok (or_else (field (field face "boundingPoly") "vertices") (VArray [])).
Proof.
  intros Hface. unfold verts_of. rewrite (Get_field _ _ Hface). simpl.
  by rewrite OptGet_is_field.
Qed.

Lemma forEach_push_vertex_nullish vs acc :
  if existsb nullish vs
  then Array_forEach push_vertex acc vs = Throw TypeError
  else ∃ r, Array_forEach push_vertex acc vs = Ok r.
Proof.
  revert acc. induction vs as [|v vs IH]; intros acc; simpl; [eauto|].
  destruct (nullish v) eqn:Hv; simpl.
  - unfold push_vertex. rewrite (Get_nullish v "x" Hv). reflexivity.
  - assert (∃ acc', push_vertex acc v = Ok acc') as [acc' ->].
    { unfold push_vertex.
      rewrite (Get_field v "x" Hv), (Get_field v "y" Hv). simpl. eauto. }
    simpl. apply IH.
Qed.

Lemma face_rect_breaks face :
  if breaks face
  then face_rect face = Throw TypeError
  else ∃ o, face_rect face = Ok o.
Proof.
  unfold breaks, face_rect. destruct (nullish face) eqn:Hface; simpl.
  { unfold verts_of. by rewrite (Get_nullish _ _ Hface). }
  rewrite (verts_of_field _ Hface). simpl.
  destruct (or_else _ _) as [| | | | | |vs]; simpl; try done.
  pose proof (forEach_push_vertex_nullish vs ([], [])) as Hloop.
  destruct (existsb nullish vs).
  - by rewrite Hloop.
  - destruct Hloop as [[xs ys] ->]. simpl. destruct xs, ys; eauto.
Qed.

Lemma Array_map_face_rect_breaks annotations :
  if existsb breaks annotations
  then Array_map face_rect annotations = Throw TypeError
  else ∃ mapped, Array_map face_rect annotations = Ok mapped.
Proof.
  induction annotations as [|face l IH]; simpl; [eauto|].
  pose proof (face_rect_breaks face) as Hface.
  destruct (breaks face); simpl.
  - by rewrite Hface.
  - destruct Hface as [o ->]. simpl. destruct (existsb breaks l).
    + by rewrite IH.
    + destruct IH as [mapped ->]. simpl. eauto.
Qed.

(** The normalizer throws exactly when some annotation is one the callback
    cannot process, it then throws a [TypeError] and nothing else, and it
    returns a list exactly when no annotation is of that kind: one bad
    annotation loses the whole answer, nothing is filtered. *)
Theorem faces_throws_iff annotations :
  (∀ e, faces annotations = Throw e ↔
        e = TypeError ∧ ∃ face, face ∈ annotations ∧ breaks face = true) ∧
  ((∃ out, faces annotations = Ok out) ↔
   ∀ face, face ∈ annotations → breaks face = false).
Proof.
  pose proof (Array_map_face_rect_breaks annotations) as Hmap.
  unfold faces, faces_with.
  destruct (existsb breaks annotations) eqn:Hex.
  - rewrite Hmap. simpl.
    apply existsb_exists in Hex as (face & Hin%list_elem_of_In & Hface).
    split.
    + intros e. split; [intros [= <-]; eauto|by intros [-> _]].
    + split; [by intros [out ?]|].
      intros Hall. apply Hall in Hin. congruence.
  - destruct Hmap as [mapped ->]. simpl.
    assert (∀ face, face ∈ annotations → breaks face = false) as Hall.
    { intros face Hin%list_elem_of_In.
      destruct (breaks face) eqn:Hface; [|done].
      assert (existsb breaks annotations = true); [|congruence].
      apply existsb_exists; eauto. }
    split.
    + intros e. split; [done|].
      intros [_ (face & Hin%Hall & Hface)]. congruence.
    + split; [done|eauto].
Qed.

(** *** Lists of annotations put together or reordered *)

Lemma filter_Boolean_perm {A : Type} (l l' : list (option A)) :
  l ≡ₚ l' → filter_Boolean l ≡ₚ filter_Boolean l'.
Proof.
  induction 1 as [|[a|] l l' _ IH|[a|] [b|] l|l1 l2 l3 _ IH1 _ IH2]; simpl;
    try done.
  - by rewrite IH.
  - apply Permutation_swap.
  - by rewrite IH1.
Qed.

Lemma Array_map_perm {A B : Type} (f : A → result B) l l' bs :
  l ≡ₚ l' →
  Array_map f l = Ok bs →
  ∃ bs', Array_map f l' = Ok bs' ∧ bs' ≡ₚ bs.
Proof.
  intros Hperm. revert bs.
  induction Hperm as [|a l l' _ IH|a a' l|l1 l2 l3 _ IH1 _ IH2];
    intros bs Hrun; simpl in *.
  - eauto.
  - bind_inv Hrun. injection Hrun as <-.
    destruct (IH _ Ha0) as (bs' & -> & Hbs). rewrite Ha. simpl.
    eexists. split; [done|]. by rewrite Hbs.
  - bind_inv Hrun. injection Hrun as <-. bind_inv Ha0. injection Ha0 as <-.
    rewrite Ha, Ha1, Ha2. simpl.
    eexists. split; [done|]. apply Permutation_swap.
  - destruct (IH1 _ Hrun) as (bs2 & Hrun2 & Hbs2).
    destruct (IH2 _ Hrun2) as (bs3 & Hrun3 & Hbs3).
    exists bs3. split; [done|]. by rewrite Hbs3.
Qed.

Lemma NoDup_fmap_elem_inj {A B : Type} (f : A → B) (l : list A) a b :
  NoDup (f <$> l) → a ∈ l → b ∈ l → f a = f b → a = b.
Proof.
  induction l as [|c l IH]; csimpl; intros Hnd Ha Hb Hf.
  - by apply elem_of_nil in Ha.
  - apply NoDup_cons in Hnd as [Hc Hnd].
    apply elem_of_cons in Ha as [->|Ha]; apply elem_of_cons in Hb as [->|Hb].
    + done.
    + destruct Hc. rewrite Hf. by apply list_elem_of_fmap_2.
    + destruct Hc. rewrite <- Hf. by apply list_elem_of_fmap_2.
    + by apply IH.
Qed.

(** The output for two lists put together is the sorted merge of the two
    outputs. *)
Theorem faces_app annotations1 annotations2 out1 out2 :
  faces annotations1 = Ok out1 →
  faces annotations2 = Ok out2 →
  faces (annotations1 ++ annotations2) = Ok (Array_sort by_x (out1 ++ out2)).
Proof.
  intros (m1 & Hm1%Array_map_Forall2 & ->)%faces_Ok
         (m2 & Hm2%Array_map_Forall2 & ->)%faces_Ok.
  unfold faces, faces_with. rewrite Array_map_app, Hm1, Hm2. simpl.
  f_equal. rewrite filter_Boolean_app.
  apply (sorts_by_unique x (filter_Boolean m1 ++ filter_Boolean m2)).
  { apply (Array_sort_sorts_by x). }
  split; [|split].
  - by rewrite !(Array_sort_perm x).
  - apply (Array_sort_sorted x).
  - intros k.
    by rewrite (Array_sort_filter x), !filter_app, !(Array_sort_filter x).
Qed.

Lemma faces_app_witness :
  faces ([face_A] ++ faces_ties)
  = Ok (Array_sort by_x
          ([mkRect 10 5 40 35] ++
           [mkRect 10 0 10 1; mkRect 10 0 10 2; mkRect 30 0 30 10])).
Proof. apply (faces_app [face_A] faces_ties); reflexivity. Defined.

(** Reordering the annotations reorders the output at most: it is a
    permutation of the same rectangles, and the same list when no two of
    them share a left edge. *)
Theorem faces_reordered annotations annotations' out :
  annotations ≡ₚ annotations' →
  faces annotations = Ok out →
  ∃ out',
    faces annotations' = Ok out' ∧
    out' ≡ₚ out ∧
    (NoDup (x <$> out) → out' = out).
Proof.
  intros Hperm (m & Hm%Array_map_Forall2 & ->)%faces_Ok.
  destruct (Array_map_perm _ _ _ _ Hperm Hm) as (m' & Hm' & Hmm).
  exists (Array_sort by_x (filter_Boolean m')).
  assert (Array_sort by_x (filter_Boolean m')
          ≡ₚ Array_sort by_x (filter_Boolean m)) as Hout.
  { rewrite !(Array_sort_perm x). by apply filter_Boolean_perm. }
  split; [|split; [done|]].
  { unfold faces, faces_with. by rewrite Hm'. }
  intros Hnd.
  apply (StronglySorted_unique_strong (λ a b, x a ≤ x b));
    [|apply (Array_sort_sorted x)|apply (Array_sort_sorted x)|done].
  intros r1 r2 Hr1 Hr2 Hle1 Hle2. rewrite Hout in Hr1.
  apply (NoDup_fmap_elem_inj x _ _ _ Hnd Hr1 Hr2). lia.
Qed.

Lemma faces_reordered_witness :
  ∃ out',
    faces (rev (face_A :: face_B :: faces_ties)) = Ok out' ∧
    out' ≡ₚ [mkRect 10 5 40 35; mkRect 10 0 10 1; mkRect 10 0 10 2;
             mkRect 30 0 30 10] ∧
    (NoDup (x <$> [mkRect 10 5 40 35; mkRect 10 0 10 1; mkRect 10 0 10 2;
                   mkRect 30 0 30 10]) →
     out' = [mkRect 10 5 40 35; mkRect 10 0 10 1; mkRect 10 0 10 2;
             mkRect 30 0 30 10]).
Proof.
  apply (faces_reordered (face_A :: face_B :: faces_ties));
    [apply Permutation_rev|reflexivity].
Defined.

(** ** Beyond the claims: the storage relay *)

(** *** [trim] on padded and on blank names *)

Lemma trimStart_white_space l s :
  all_white_space l = true → trimStart (l +:+ s) = trimStart s.
Proof.
  induction l as [|c l IH]; simpl; [done|].
  intros [Hc Hl]%andb_prop. rewrite Hc. by apply IH.
Qed.

Lemma trimEnd_blank r : all_white_space r = true → trimEnd r = "".
Proof.
  induction r as [|c r IH]; simpl; [done|].
  intros [Hc Hr]%andb_prop. by rewrite (IH Hr), Hc.
Qed.

Lemma trimEnd_white_space s r :
  all_white_space r = true → trimEnd (s +:+ r) = trimEnd s.
Proof.
  intros Hr. induction s as [|c s IH]; simpl.
  - by apply trimEnd_blank.
  - by rewrite IH.
Qed.

Lemma append_empty_r s : s +:+ "" = s.
Proof.
  induction s as [|c s IH]; [done|].
  change (String c (s +:+ "") = String c s). by rewrite IH.
Qed.

Lemma trim_blank s : all_white_space s = true → trim s = "".
Proof.
  intros Hs. unfold trim. rewrite <- (append_empty_r s).
  by rewrite trimStart_white_space.
Qed.

Lemma trim_padded l c s r :
  all_white_space l = true → all_white_space r = true →
  is_white_space c = false →
  trimEnd (String c s) = String c s →
  trim (l +:+ String c s +:+ r) = String c s.
Proof.
  intros Hl Hr Hc Hs. unfold trim. rewrite trimStart_white_space by done.
  change (String c s +:+ r) with (String c (s +:+ r)).
  cbn [trimStart]. rewrite Hc.
  change (String c (s +:+ r)) with (String c s +:+ r).
  by rewrite trimEnd_white_space.
Qed.

(** *** The upload handler, case by case *)

Section RelayBeyond.
Context `{Runtime}.

(** The handler as one case analysis. *)
Lemma uploadPdfDirect_cases req_body b :
  uploadPdfDirect req_body b
  = if truthy (field req_body "pdfBase64") then
      match objectName_of req_body with
      | Throw _ => (upload_failed, b)
      | Ok name =>
          if Set_has ALLOWED_OBJECTS name then
            match Buffer_from (field req_body "pdfBase64") with
            | Throw _ => (upload_failed, b)
            | Ok data =>
                if sdk_rejects (Save name data) then (upload_failed, b)
                else (upload_ok name, <[name := data]> b)
            end
          else (upload_invalid_name, b)
      end
    else (upload_no_payload, b).
Proof.
  unfold uploadPdfDirect, uploadPdfDirect_try.
  rewrite OptGet_field. run.
  destruct (truthy (field req_body "pdfBase64")); run; [|done].
  destruct (objectName_of req_body) as [name|]; run; [|done].
  destruct (Set_has ALLOWED_OBJECTS name); run; [|done].
  destruct (Buffer_from (field req_body "pdfBase64")) as [data|]; run;
    [|done].
  unfold file_save. by destruct (sdk_rejects _).
Qed.

Lemma download_insert_other e name content b :
  name ≠ object_of e →
  download e (<[name := content]> b) = download e b.
Proof.
  intros Hne.
  destruct e; unfold download, menu_current, boardpass_current,
    boarding_current, serve, file_download;
    by rewrite lookup_insert_ne.
Qed.

(** An upload answers 200, 400 or 500.  With 200 it has written the bytes
    that [Buffer.from] made of the payload under the effective object name,
    which is on the allow-list and is the name the answer reports, and has
    touched no other object; with 400 or 500 the bucket is as it was. *)
Theorem upload_outcome req_body b :
  (∃ name data,
      name ∈ ALLOWED_OBJECTS ∧
      objectName_of req_body = Ok name ∧
      Buffer_from (field req_body "pdfBase64") = Ok data ∧
      uploadPdfDirect req_body b = (upload_ok name, <[name := data]> b)) ∨
  ((status (uploadPdfDirect req_body b).1 = 400 ∨
    status (uploadPdfDirect req_body b).1 = 500) ∧
   (uploadPdfDirect req_body b).2 = b).
Proof.
  rewrite uploadPdfDirect_cases.
  destruct (truthy (field req_body "pdfBase64")); [|right; auto].
  destruct (objectName_of req_body) as [name|]; [|right; auto].
  destruct (Set_has ALLOWED_OBJECTS name) eqn:Hname; [|right; auto].
  destruct (Buffer_from (field req_body "pdfBase64")) as [data|];
    [|right; auto].
  destruct (sdk_rejects (Save name data)); [right; auto|].
  left. exists name, data. by apply Set_has_elem in Hname.
Qed.

(** The answer is 400 in two cases and no other: there is no payload, or
    the effective object name is not on the allow-list.  The payload is
    looked at first, so a request with neither gets the payload message. *)
Theorem upload_client_error_iff req_body b :
  (status (uploadPdfDirect req_body b).1 = 400 ↔
   truthy (field req_body "pdfBase64") = false ∨
   ∃ name, objectName_of req_body = Ok name ∧ name ∉ ALLOWED_OBJECTS) ∧
  (truthy (field req_body "pdfBase64") = false →
   uploadPdfDirect req_body b = (upload_no_payload, b)).
Proof.
  rewrite uploadPdfDirect_cases.
  destruct (truthy (field req_body "pdfBase64"));
    [|split; [split; [by left|done]|done]].
  split; [|done].
  destruct (objectName_of req_body) as [name|].
  - destruct (Set_has ALLOWED_OBJECTS name) eqn:Hname.
    + apply Set_has_elem in Hname.
      destruct (Buffer_from _) as [data|];
        [destruct (sdk_rejects _)|]; simpl;
        (split; [done|]); by intros [?|(? & [= <-] & ?)].
    + split; [|done]. intros _. right. exists name. split; [done|].
      intros Hin%Set_has_elem. congruence.
  - simpl. split; [done|]. by intros [?|(? & ? & _)].
Qed.

(** Round trip: after an upload that answered 200, the endpoint that reads
    the object named in the request sends the bytes [Buffer.from] made of
    the payload, whatever was stored before. *)
Theorem upload_then_download req_body b e :
  status (uploadPdfDirect req_body b).1 = 200 →
  objectName_of req_body = Ok (object_of e) →
  sdk_rejects (Download (object_of e)) = false →
  ∃ data,
    Buffer_from (field req_body "pdfBase64") = Ok data ∧
    download e (uploadPdfDirect req_body b).2 = served data.
Proof.
  rewrite uploadPdfDirect_cases. intros Hok Hname Hsdk. rewrite Hname in *.
  destruct (truthy (field req_body "pdfBase64")); [|done].
  destruct (Set_has ALLOWED_OBJECTS (object_of e)); [|done].
  destruct (Buffer_from (field req_body "pdfBase64")) as [data|]; [|done].
  destruct (sdk_rejects (Save (object_of e) data)); [done|].
  exists data. split; [done|]. simpl.
  destruct e; unfold download, menu_current, boardpass_current,
    boarding_current, serve, file_download; simpl in *;
    by rewrite Hsdk, lookup_insert_eq.
Qed.

(** An upload changes what a download endpoint sends only if its effective
    object name is the object that endpoint reads. *)
Theorem upload_leaves_other_objects req_body b e :
  objectName_of req_body ≠ Ok (object_of e) →
  download e (uploadPdfDirect req_body b).2 = download e b.
Proof.
  intros Hname.
  destruct (uploadPdfDirect_bucket req_body b)
    as [->|(name & data & Hname' & ->)]; [done|].
  apply download_insert_other. congruence.
Qed.

(** An [objectName] that is truthy and not a string (a number, [true], an
    object, an array) is answered with 500, not with 400: [.trim] is not a
    function and the [catch] takes over.  Nothing is written. *)
Theorem upload_objectName_not_a_string req_body b :
  truthy (field req_body "pdfBase64") = true →
  truthy (field req_body "objectName") = true →
  (∀ s, field req_body "objectName" ≠ VString s) →
  uploadPdfDirect req_body b = (upload_failed, b).
Proof.
  intros Hpdf Hname Hnot. rewrite uploadPdfDirect_cases, Hpdf.
  unfold objectName_of. rewrite OptGet_field. run.
  unfold or_else. rewrite Hname.
  destruct (field req_body "objectName"); try done.
  by destruct (Hnot s).
Qed.

(** An [objectName] made of white space only is answered with 400, unlike
    the empty string, which stands for [menu_current.pdf]. *)
Theorem upload_blank_objectName req_body b s :
  truthy (field req_body "pdfBase64") = true →
  field req_body "objectName" = VString s →
  s ≠ "" →
  all_white_space s = true →
  uploadPdfDirect req_body b = (upload_invalid_name, b).
Proof.
  intros Hpdf Hname Hs Hblank. rewrite uploadPdfDirect_cases, Hpdf.
  unfold objectName_of. rewrite OptGet_field, Hname. run.
  unfold or_else. simpl.
  destruct (String.eqb_spec s ""); [done|]. simpl.
  by rewrite trim_blank.
Qed.

(** White space around an allow-listed name does no harm: the object is
    stored under the name itself, and that is the name in the answer. *)
Theorem upload_padded_objectName req_body b pre name post data :
  truthy (field req_body "pdfBase64") = true →
  field req_body "objectName" = VString (pre +:+ name +:+ post) →
  all_white_space pre = true →
  all_white_space post = true →
  name ∈ ALLOWED_OBJECTS →
  Buffer_from (field req_body "pdfBase64") = Ok data →
  sdk_rejects (Save name data) = false →
  uploadPdfDirect req_body b = (upload_ok name, <[name := data]> b).
Proof.
  intros Hpdf Hname Hl Hr Hin Hbuf Hsdk.
  assert (∃ c s, name = String c s ∧ is_white_space c = false ∧
                 trimEnd (String c s) = String c s) as (c & s & -> & Hc & Hs).
  { unfold ALLOWED_OBJECTS in Hin. rewrite !elem_of_cons in Hin.
    destruct Hin as [->|[->|[->|[]%elem_of_nil]]]; eauto. }
  rewrite uploadPdfDirect_cases, Hpdf.
  unfold objectName_of. rewrite OptGet_field, Hname. run.
  assert (or_else (VString (pre +:+ String c s +:+ post))
            (VString MENU_OBJECT)
          = VString (pre +:+ String c s +:+ post)) as ->.
  { unfold or_else. simpl.
    destruct (String.eqb_spec (pre +:+ String c s +:+ post) ""); [|done].
    destruct pre; discriminate. }
  simpl call_trim. rewrite (trim_padded _ _ _ _ Hl Hr Hc Hs).
  apply Set_has_elem in Hin. by rewrite Hin, Hbuf, Hsdk.
Qed.

(** A download endpoint answers 200 exactly when the storage service does
    not reject the read and the object it reads exists; it then sends the
    stored bytes as a PDF that is not to be cached, and otherwise 500 with
    its own text. *)
Theorem download_ok_iff e b :
  (status (download e b) = 200 ↔
   sdk_rejects (Download (object_of e)) = false ∧
   is_Some (b !! object_of e)) ∧
  (∀ content,
      sdk_rejects (Download (object_of e)) = false →
      b !! object_of e = Some content →
      download e b = served content) ∧
  (status (download e b) ≠ 200 →
   download e b = mkResponse 500 [] (Text (unavailable_of e))).
Proof.
  assert (download e b =
          serve (object_of e) (unavailable_of e) b) as -> by by destruct e.
  unfold serve, file_download.
  destruct (sdk_rejects (Download (object_of e))); simpl.
  { split; [split; [done|by intros [? _]]|]. split; [done|done]. }
  destruct (b !! object_of e) as [content|]; simpl.
  - split; [split; [eauto|done]|]. split; [|done].
    by intros ? _ [= <-].
  - split; [split; [done|by intros [_ [? ?]]]|]. split; [|done]. done.
Qed.

End RelayBeyond.

(** ** Beyond the claims: the detection endpoint *)

Lemma faces_breaks_cases annotations :
  if existsb breaks annotations
  then faces annotations = Throw TypeError
  else ∃ out, faces annotations = Ok out.
Proof.
  pose proof (Array_map_face_rect_breaks annotations) as Hmap.
  unfold faces, faces_with. destruct (existsb breaks annotations).
  - by rewrite Hmap.
  - destruct Hmap as [mapped ->]. simpl. eauto.
Qed.

Section DetectBeyond.
Context `{Vision}.

(** The handler as one case analysis. *)
Lemma detectFaces_cases req_body :
  detectFaces req_body
  = if has_image req_body then
      match faceDetection (vision_request (field req_body "imageBase64")) with
      | Throw _ => vision_failed
      | Ok res =>
          if nullish res then vision_failed
          else
            match or_else (field res "faceAnnotations") (VArray []) with
            | VArray annotations =>
                match faces annotations with
                | Ok out => faces_found out
                | Throw _ => vision_failed
                end
            | _ => vision_failed
            end
      end
    else no_image.
Proof.
  unfold detectFaces, detectFaces_try, has_image.
  destruct (truthy req_body) eqn:Hbody; simpl; [|done].
  rewrite Get_field by by destruct req_body. run.
  destruct (truthy (field req_body "imageBase64")); simpl; [|done].
  fold (vision_request (field req_body "imageBase64")).
  destruct (faceDetection _) as [res|]; run; [|done].
  destruct (nullish res) eqn:Hres.
  { by rewrite (Get_nullish _ _ Hres). }
  rewrite (Get_field _ _ Hres). run.
  destruct (or_else _ _); try done.
  by destruct (faces elems).
Qed.

(** The answer is 400 exactly when the request carries no image, whatever
    the provider would have said: it is not asked. *)
Theorem detectFaces_no_image_iff req_body :
  (status (detectFaces req_body) = 400 ↔ has_image req_body = false) ∧
  (has_image req_body = false → detectFaces req_body = no_image).
Proof.
  rewrite detectFaces_cases.
  destruct (has_image req_body); [|done].
  split; [|done]. split; [|done].
  destruct (faceDetection _) as [res|]; [|done].
  destruct (nullish res); [done|].
  destruct (or_else _ _); try done.
  by destruct (faces elems).
Qed.

(** With an image, a provider that resolves to a result object, and
    annotations the callback can process (none at all when
    [faceAnnotations] is missing or falsy), the answer is 200 with the
    normalizer's list under [faces]. *)
Theorem detectFaces_answers req_body res annotations :
  has_image req_body = true →
  faceDetection (vision_request (field req_body "imageBase64")) = Ok res →
  nullish res = false →
  or_else (field res "faceAnnotations") (VArray []) = VArray annotations →
  (∀ face, face ∈ annotations → breaks face = false) →
  ∃ out,
    faces annotations = Ok out ∧
    detectFaces req_body = faces_found out.
Proof.
  intros Himage Hres Hnull Hann Hall.
  rewrite detectFaces_cases, Himage, Hres, Hnull, Hann.
  pose proof (faces_breaks_cases annotations) as Hfaces.
  destruct (existsb breaks annotations) eqn:Hex.
  - apply existsb_exists in Hex as (face & Hin%list_elem_of_In & Hface).
    apply Hall in Hin. congruence.
  - destruct Hfaces as [out ->]. eauto.
Qed.

(** With an image, the answer is the 500 of a failed Vision call exactly
    when the provider rejects, or resolves to no result, or to annotations
    that are not an array, or to an array with an annotation the callback
    cannot process: bad data from the provider and a provider that is down
    look the same to the client. *)
Theorem detectFaces_failure_iff req_body :
  has_image req_body = true →
  (detectFaces req_body = vision_failed ↔
   match faceDetection (vision_request (field req_body "imageBase64")) with
   | Throw _ => True
   | Ok res =>
       nullish res = true ∨
       match or_else (field res "faceAnnotations") (VArray []) with
       | VArray annotations =>
           ∃ face, face ∈ annotations ∧ breaks face = true
       | _ => True
       end
   end).
Proof.
  intros Himage. rewrite detectFaces_cases, Himage.
  destruct (faceDetection _) as [res|]; [|done].
  destruct (nullish res); [by split; auto|].
  destruct (or_else _ _) as [| | | | | |annotations];
    try (by split; auto).
  pose proof (faces_breaks_cases annotations) as Hfaces.
  destruct (existsb breaks annotations) eqn:Hex.
  - rewrite Hfaces. split; [|done]. intros _. right.
    apply existsb_exists in Hex as (face & Hin%list_elem_of_In & Hface).
    eauto.
  - destruct Hfaces as [out ->]. split; [done|].
    intros [?|(face & Hin%list_elem_of_In & Hface)]; [done|].
    assert (existsb breaks annotations = true); [|congruence].
    apply existsb_exists; eauto.
Qed.

End DetectBeyond.

(** ** The further properties at examples *)

Lemma upload_client_error_iff_witness :
  @uploadPdfDirect example_runtime
    (VObject [("objectName", VString "evil.pdf")]) example_bucket
  = (upload_no_payload, example_bucket).
Proof.
  apply (proj2 (@upload_client_error_iff example_runtime
                  (VObject [("objectName", VString "evil.pdf")])
                  example_bucket)).
  reflexivity.
Defined.

Lemma upload_then_download_witness :
  ∃ data,
    @Buffer_from example_runtime (VString "QUJD") = Ok data ∧
    @download example_runtime GET_boarding_current
      (@uploadPdfDirect example_runtime
         (upload_request "QUJD" (Some "boardpass_current.pdf"))
         example_bucket).2
    = served data.
Proof.
  apply (@upload_then_download example_runtime
           (upload_request "QUJD" (Some "boardpass_current.pdf"))
           example_bucket GET_boarding_current); reflexivity.
Defined.

Lemma upload_leaves_other_objects_witness :
  @download example_runtime GET_boardpass_current
    (@uploadPdfDirect example_runtime (upload_request "QUJD" None)
       example_bucket).2
  = @download example_runtime GET_boardpass_current example_bucket.
Proof.
  apply (@upload_leaves_other_objects example_runtime
           (upload_request "QUJD" None) example_bucket GET_boardpass_current).
  discriminate.
Defined.

Lemma upload_objectName_not_a_string_witness :
  @uploadPdfDirect example_runtime
    (VObject [("pdfBase64", VString "QUJD"); ("objectName", VNumber 5)])
    example_bucket
  = (upload_failed, example_bucket).
Proof.
  apply (@upload_objectName_not_a_string example_runtime);
    [reflexivity|reflexivity|discriminate].
Defined.

Lemma upload_blank_objectName_witness :
  @uploadPdfDirect example_runtime (upload_request "QUJD" (Some "  "))
    example_bucket
  = (upload_invalid_name, example_bucket).
Proof.
  apply (@upload_blank_objectName example_runtime
           (upload_request "QUJD" (Some "  ")) example_bucket "  ");
    [reflexivity|reflexivity|discriminate|reflexivity].
Defined.

Lemma upload_padded_objectName_witness :
  @uploadPdfDirect example_runtime
    (upload_request "QUJD" (Some "  boardpass_current.pdf ")) example_bucket
  = (upload_ok "boardpass_current.pdf",
     <["boardpass_current.pdf" := @base64 example_runtime "QUJD"]>
       example_bucket).
Proof.
  apply (@upload_padded_objectName example_runtime
           (upload_request "QUJD" (Some "  boardpass_current.pdf "))
           example_bucket "  " "boardpass_current.pdf" " ");
    [reflexivity|reflexivity|reflexivity|reflexivity| |reflexivity|
     reflexivity].
  right. left.
Defined.

Lemma download_ok_iff_witness :
  @download example_runtime GET_boardpass_current example_bucket
  = served [Byte.x01].
Proof.
  apply (proj1 (proj2 (@download_ok_iff example_runtime
                         GET_boardpass_current example_bucket)));
    reflexivity.
Defined.

Lemma detectFaces_no_image_iff_witness :
  @detectFaces failing_vision (VObject [("imageBase64", VString "")])
  = no_image.
Proof.
  apply (proj2 (@detectFaces_no_image_iff failing_vision
                  (VObject [("imageBase64", VString "")]))).
  reflexivity.
Defined.

Lemma detectFaces_answers_witness :
  ∃ out,
    faces faces_ties = Ok out ∧
    @detectFaces example_vision (detect_request "aGk=") = faces_found out.
Proof.
  apply (@detectFaces_answers example_vision (detect_request "aGk=")
           (VObject [("faceAnnotations", VArray faces_ties)]) faces_ties);
    try reflexivity.
  intros face Hin. unfold faces_ties in Hin.
  repeat (apply elem_of_cons in Hin as [->|Hin]; [reflexivity|]).
  by apply elem_of_nil in Hin.
Defined.

Lemma detectFaces_failure_iff_witness :
  @detectFaces failing_vision (detect_request "aGk=") = vision_failed.
Proof.
  apply (@detectFaces_failure_iff failing_vision (detect_request "aGk="));
    [reflexivity|exact I].
Defined.

(** ** The normalizer and the store *)

Ltac step := unfold mbind, M_bind, mret, M_ret, pure; cbn beta iota.

Lemma untouched_refl h : untouched h h.
Proof. by intros l a. Qed.

Lemma untouched_trans h1 h2 h3 :
  untouched h1 h2 → untouched h2 h3 → untouched h1 h3.
Proof. intros H12 H23 l a Hl. by apply H23, H12. Qed.

Lemma fresh_cell (h : store) : h !! fresh (dom h) = None.
Proof. apply not_elem_of_dom, is_fresh. Qed.

Lemma untouched_new (h : store) l a : h !! l = None → untouched h (<[l := a]> h).
Proof.
  intros Hl l' a' Hl'. rewrite lookup_insert_ne; [done|]. congruence.
Qed.

(** The two cells of [xs] and [ys] on top of a store [h0]. *)
Abbreviation with_xs_ys h0 lx ly X Y :=
  (<[ly := Numbers Y]> (<[lx := Numbers X]> h0)).

Lemma push_xs (h0 : store) lx ly X Y n :
  lx ≠ ly →
  push lx n (with_xs_ys h0 lx ly X Y)
  = (Ok (), with_xs_ys h0 lx ly (X ++ [n]) Y).
Proof.
  intros Hne. unfold push.
  rewrite lookup_insert_ne, lookup_insert_eq by done.
  by rewrite insert_insert_ne, insert_insert_eq.
Qed.

Lemma push_ys (h0 : store) lx ly X Y n :
  push ly n (with_xs_ys h0 lx ly X Y)
  = (Ok (), with_xs_ys h0 lx ly X (Y ++ [n])).
Proof. unfold push. by rewrite lookup_insert_eq, insert_insert_eq. Qed.

(** One round of the loop does to the two cells what [push_vertex] does to
    the pair of lists, and throws when it throws. *)
Lemma push_vertex_at_spec (h0 : store) lx ly X Y v :
  lx ≠ ly →
  push_vertex_at lx ly v (with_xs_ys h0 lx ly X Y)
  = match push_vertex (X, Y) v with
    | Ok (X', Y') => (Ok (), with_xs_ys h0 lx ly X' Y')
    | Throw e => (Throw e, with_xs_ys h0 lx ly X Y)
    end.
Proof.
  intros Hne. unfold push_vertex_at, push_vertex.
  destruct (nullish v) eqn:Hv.
  { rewrite (Get_nullish v "x" Hv). by step. }
  rewrite (Get_field v "x" Hv), (Get_field v "y" Hv). step. simpl.
  destruct (field v "x"), (field v "y"); step;
    rewrite ?(push_xs _ _ _ _ _ _ Hne), ?push_ys; done.
Qed.

Lemma forEach_push_vertex_at (h0 : store) lx ly vs X Y :
  lx ≠ ly →
  ∃ X' Y' r,
    forEach_M (push_vertex_at lx ly) vs (with_xs_ys h0 lx ly X Y)
    = (r, with_xs_ys h0 lx ly X' Y') ∧
    match Array_forEach push_vertex (X, Y) vs with
    | Ok acc => r = Ok () ∧ acc = (X', Y')
    | Throw e => r = Throw e
    end.
Proof.
  intros Hne. revert X Y. induction vs as [|v vs IH]; intros X Y; simpl.
  - exists X, Y, (Ok ()). by step.
  - step. rewrite (push_vertex_at_spec _ _ _ _ _ _ Hne).
    destruct (push_vertex (X, Y) v) as [[X1 Y1]|e]; simpl.
    + apply IH.
    + by exists X, Y, (Throw e).
Qed.

(** The callback in the store returns what [face_rect] returns, and all it
    does to the store is to add the cells of its own [xs] and [ys]. *)
Lemma face_rect_at_spec face (h : store) :
  ∃ h', face_rect_at face h = (face_rect face, h') ∧ untouched h h'.
Proof.
  unfold face_rect_at, face_rect. step.
  destruct (verts_of face) as [verts|e]; simpl;
    [|exists h; split; [done|apply untouched_refl]].
  set (lx := fresh (dom h)).
  set (ly := fresh (dom (<[lx := Numbers []]> h))).
  assert (h !! lx = None) as Hlx by apply fresh_cell.
  assert ((<[lx := Numbers []]> h) !! ly = None) as Hly by apply fresh_cell.
  assert (lx ≠ ly) as Hne.
  { intros <-. by rewrite lookup_insert_eq in Hly. }
  assert (∀ X Y, untouched h (with_xs_ys h lx ly X Y)) as Hkeep.
  { intros X Y l a Hl.
    rewrite !lookup_insert_ne; [done| |]; intros <-; [congruence|].
    rewrite lookup_insert_ne in Hly by done. congruence. }
  destruct verts as [| | | | | |vs]; step; simpl; eauto.
  destruct (forEach_push_vertex_at h lx ly vs [] [] Hne)
    as (X' & Y' & r & -> & Hloop).
  destruct (Array_forEach push_vertex ([], []) vs) as [acc|e]; simpl.
  - destruct Hloop as [-> ->]. step. unfold numbers_at.
    rewrite lookup_insert_ne, lookup_insert_eq by done. step.
    rewrite lookup_insert_eq. step.
    exists (with_xs_ys h lx ly X' Y'). split; [|apply Hkeep].
    by destruct X', Y'.
  - subst r. step. eauto.
Qed.

Lemma map_face_rect_at annotations (h : store) :
  ∃ h',
    map_M face_rect_at annotations h = (Array_map face_rect annotations, h') ∧
    untouched h h'.
Proof.
  revert h. induction annotations as [|face l IH]; intros h; simpl.
  - exists h. split; [done|apply untouched_refl].
  - step. destruct (face_rect_at_spec face h) as (h1 & -> & H1).
    destruct (face_rect face) as [o|e]; simpl; [|eauto].
    destruct (IH h1) as (h2 & -> & H2).
    exists h2. split; [|by eapply untouched_trans].
    by destruct (Array_map face_rect l).
Qed.

(** A run on the annotations in a cell returns what the pipeline returns
    for them, and changes no cell that was there before: not the
    annotations, not anything else. *)
Lemma faces_at_spec sort l (h : store) annotations :
  h !! l = Some (Values annotations) →
  returned (faces_at sort l h) = faces_with sort annotations ∧
  untouched h (faces_at sort l h).2.
Proof.
  intros Hl. unfold faces_at, faces_with, values_at. step. rewrite Hl. step.
  destruct (map_face_rect_at annotations h) as (h1 & -> & H1).
  destruct (Array_map face_rect annotations) as [mapped|e]; simpl;
    [|done].
  set (h2 := <[fresh (dom h1) := Nullable mapped]> h1).
  set (lf := fresh (dom h2)).
  unfold sort_at. rewrite lookup_insert_eq, insert_insert_eq. simpl.
  rewrite lookup_insert_eq. split; [done|].
  eapply untouched_trans; [exact H1|].
  eapply untouched_trans; [apply untouched_new, fresh_cell|].
  apply untouched_new, fresh_cell.
Qed.

(** C7: two invocations on the same annotations return the same rectangles
    in the same order, or throw the same exception: in two different
    stores, one after the other in the store the first one left, and
    whichever conforming sort the engine has.  The run reads no cell but the
    annotations and its own new arrays, and writes to none that was there
    before. *)
Theorem normalizer_deterministic
  (sortA sortB : (Rect → Rect → Z) → list Rect → list Rect) :
  (∀ l, sorts_by x l (sortA by_x l)) →
  (∀ l, sorts_by x l (sortB by_x l)) →
  ∀ annotations (h1 h2 : store) (l1 l2 : nat),
    h1 !! l1 = Some (Values annotations) →
    h2 !! l2 = Some (Values annotations) →
    returned (faces_at sortA l1 h1) = returned (faces_at sortB l2 h2) ∧
    returned (faces_at sortA l1 h1)
    = returned (faces_at sortB l1 (faces_at sortA l1 h1).2) ∧
    returned (faces_at sortA l1 h1) = faces annotations ∧
    untouched h1 (faces_at sortA l1 h1).2.
Proof.
  intros HA HB annotations h1 h2 l1 l2 H1 H2.
  destruct (faces_at_spec sortA l1 h1 annotations H1) as [R1 U1].
  destruct (faces_at_spec sortB l2 h2 annotations H2) as [R2 _].
  destruct (faces_at_spec sortB l1 _ annotations (U1 _ _ H1)) as [R3 _].
  rewrite R1, R2, R3.
  by rewrite (faces_with_conforming_sort sortA HA),
             (faces_with_conforming_sort sortB HB).
Qed.

Lemma normalizer_deterministic_witness :
  returned (faces_at (@Array_sort Rect) 1 example_store)
  = returned (faces_at (@insertion_sort Rect) 5 other_store) ∧
  returned (faces_at (@Array_sort Rect) 1 example_store)
  = returned (faces_at (@insertion_sort Rect) 1
                (faces_at (@Array_sort Rect) 1 example_store).2) ∧
  returned (faces_at (@Array_sort Rect) 1 example_store) = faces faces_ties ∧
  untouched example_store (faces_at (@Array_sort Rect) 1 example_store).2.
Proof.
  apply (normalizer_deterministic (@Array_sort Rect) (@insertion_sort Rect));
    [apply (Array_sort_sorts_by x)|apply (insertion_sort_sorts_by x)|
     reflexivity|reflexivity].
Defined.
